(** * LLispVM front end: lexer, parser, driver and identifier code generation

    A shallow embedding of [src/lisp_compiler.cpp].  The program keeps all of
    its state in file-level globals ([LastChar], [IdentifierStr], [NumVal],
    [CurTok], [NamedValues]) and in the two streams it touches (standard
    input, standard error); the embedding threads one record holding them
    through every function.  Functions that may recurse or loop without
    bound take a fuel argument. *)

From Stdlib Require Import ZArith List String Ascii Lia.
From stdpp Require Import gmap strings.
Import ListNotations.

Local Open Scope Z_scope.

(** ** Characters and <cctype> *)

(** [getchar] returns an [int]: an unsigned char value 0..255, or [EOF]. *)
Definition EOF : Z := -1.

(** The classification functions in the "C" locale. *)
Definition isspace (c : Z) : bool := (c =? 32) || ((9 <=? c) && (c <=? 13)).
Definition isdigit (c : Z) : bool := (48 <=? c) && (c <=? 57).
Definition isalpha (c : Z) : bool :=
  ((65 <=? c) && (c <=? 90)) || ((97 <=? c) && (c <=? 122)).
Definition isalnum (c : Z) : bool := isalpha c || isdigit c.

(** Conversion of an [int] to the [char] appended to a [std::string]. *)
Definition char_of_int (c : Z) : ascii := ascii_of_N (Z.to_N (c mod 256)).

(** [Str += c] on a [std::string]. *)
Definition push_char (Str : string) (c : Z) : string :=
  (Str +:+ String (char_of_int c) EmptyString)%string.

(** The characters of a string literal as [getchar] delivers them. *)
Definition chars_of (text : string) : list Z :=
  map (fun a => Z.of_N (N_of_ascii a)) (list_ascii_of_string text).

(** ** Tokens (enum Token) *)

Definition tok_eof : Z := -1.
Definition tok_bracket_open : Z := -2.
Definition tok_bracket_close : Z := -3.
Definition tok_identifier : Z := -5.
Definition tok_number : Z := -6.

(** ** Backend values *)

(** [llvm::Value]; the only value the program ever builds is the constant of
    [NumberExprAST::codegen].  A [Value*] is an [option Value], [None] being
    [nullptr]. *)
Inductive Value : Type :=
  | ConstantInt (numBits : Z) (val : Z).

(** ** Abstract syntax tree *)

#[local] Set Warnings "-register-all".

(** The three concrete subclasses of [ExprAST].  A [std::unique_ptr<ExprAST>]
    is an [option ExprAST], [None] being the null pointer.  The source spells
    the identifier node [VariableExprAST] where it constructs it, and returns
    the bare [Items] vector where a list node is due; the embedding uses the
    declared classes [IdentifierExprAST] and [ListExprAST]. *)
Inductive ExprAST : Type :=
  | NumberExprAST (Val : Z)
  | IdentifierExprAST (Name : string)
  | ListExprAST (Items : list ExprAST).

(** ** Global state *)

Record State : Type := mkState {
  LastChar : Z;                 (* static int LastChar in gettok *)
  stdin : list Z;               (* characters getchar has not delivered yet *)
  IdentifierStr : string;       (* filled in if tok_identifier *)
  NumVal : Z;                   (* filled in if tok_number *)
  CurTok : Z;                   (* the parser's current token *)
  stderr : list string;         (* what fprintf(stderr, ...) wrote, in order *)
  NamedValues : gmap string (option Value)
}.

Definition set_lexer (c : Z) (inp : list Z) (s : State) : State :=
  mkState c inp (IdentifierStr s) (NumVal s) (CurTok s) (stderr s) (NamedValues s).
Definition set_IdentifierStr (id : string) (s : State) : State :=
  mkState (LastChar s) (stdin s) id (NumVal s) (CurTok s) (stderr s) (NamedValues s).
Definition set_NumVal (v : Z) (s : State) : State :=
  mkState (LastChar s) (stdin s) (IdentifierStr s) v (CurTok s) (stderr s) (NamedValues s).
Definition set_CurTok (t : Z) (s : State) : State :=
  mkState (LastChar s) (stdin s) (IdentifierStr s) (NumVal s) t (stderr s) (NamedValues s).
Definition set_NamedValues (m : gmap string (option Value)) (s : State) : State :=
  mkState (LastChar s) (stdin s) (IdentifierStr s) (NumVal s) (CurTok s) (stderr s) m.

(** [fprintf(stderr, ...)] with the formatted text [msg]. *)
Definition eprint (msg : string) (s : State) : State :=
  mkState (LastChar s) (stdin s) (IdentifierStr s) (NumVal s) (CurTok s)
          (stderr s ++ [msg]) (NamedValues s).

(** The state at program start, with [text] waiting on standard input:
    [LastChar] is initialised to a space, the other statics to zero/empty. *)
Definition initial_chars (inp : list Z) : State :=
  mkState 32 inp EmptyString 0 0 [] ∅.
Definition initial (text : string) : State := initial_chars (chars_of text).

(** ** Lexer *)

(** [NumVal = strtod(NumStr.c_str(), nullptr)] stores a double in an [int].
    [NumStr] only ever holds decimal digits here, so [strtod] is the decimal
    reading of the digit run (Horner's rule); it is exact for every value an
    [int] can hold.  The conversion to [int] is defined only when the value
    fits; for larger values the embedding takes what x86-64 compilers produce
    (the "integer indefinite" value [INT_MIN]). *)
Definition INT_MAX : Z := 2147483647.
Definition INT_MIN : Z := -2147483648.

Definition digit_of (a : ascii) : Z := Z.of_N (N_of_ascii a) - 48.

Fixpoint strtod_from (acc : Z) (Str : string) : Z :=
  match Str with
  | EmptyString => acc
  | String a rest =>
      if isdigit (Z.of_N (N_of_ascii a))
      then strtod_from (10 * acc + digit_of a) rest
      else acc
  end.

Definition strtod (Str : string) : Z := strtod_from 0 Str.

Definition int_of_double (d : Z) : Z :=
  if (INT_MIN <=? d) && (d <=? INT_MAX) then d else INT_MIN.

(** [while (isspace(LastChar)) LastChar = getchar();] over the characters
    still on standard input.  At end of input [getchar] returns [EOF], which
    is not a space, so the loop stops. *)
Fixpoint skip_whitespace (c : Z) (inp : list Z) {struct inp} : Z * list Z :=
  if isspace c then
    match inp with
    | [] => (EOF, [])
    | c' :: rest => skip_whitespace c' rest
    end
  else (c, inp).

(** [while (isalnum((LastChar = getchar()))) IdentifierStr += LastChar;] *)
Fixpoint read_identifier (Str : string) (inp : list Z) : string * Z * list Z :=
  match inp with
  | [] => (Str, EOF, [])
  | c :: rest =>
      if isalnum c then read_identifier (push_char Str c) rest
      else (Str, c, rest)
  end.

(** [do { NumStr += LastChar; LastChar = getchar(); } while (isdigit(LastChar));] *)
Fixpoint read_number (NumStr : string) (c : Z) (inp : list Z) {struct inp}
  : string * Z * list Z :=
  let NumStr' := push_char NumStr c in
  match inp with
  | [] => (NumStr', EOF, [])
  | c' :: rest =>
      if isdigit c' then read_number NumStr' c' rest
      else (NumStr', c', rest)
  end.

(** [gettok]: the token code returned and the state left behind. *)
Definition gettok (s : State) : Z * State :=
  let '(c, inp) := skip_whitespace (LastChar s) (stdin s) in
  let s := set_lexer c inp s in
  if c =? 40 then                                   (* '(' *)
    (tok_bracket_open, set_IdentifierStr (push_char (IdentifierStr s) c) s)
  else if c =? 41 then                              (* ')' *)
    (tok_bracket_close, set_IdentifierStr (push_char (IdentifierStr s) c) s)
  else if isalpha c then
    let '(id, c', inp') := read_identifier (push_char EmptyString c) inp in
    (tok_identifier, set_lexer c' inp' (set_IdentifierStr id s))
  else if isdigit c then
    if c =? 48 then                                 (* '0' *)
      (tok_number, set_NumVal (int_of_double (strtod (push_char EmptyString c))) s)
    else
      let '(NumStr, c', inp') := read_number EmptyString c inp in
      (tok_number, set_NumVal (int_of_double (strtod NumStr)) (set_lexer c' inp' s))
  else if c =? EOF then
    (tok_eof, s)
  else
    match inp with
    | [] => (c, set_lexer EOF [] s)
    | c' :: rest => (c, set_lexer c' rest s)
    end.

(** The spec's view of a token: the code [gettok] returned together with the
    globals it filled in. *)
Inductive Token : Type :=
  | EndOfInput
  | OpenParen
  | CloseParen
  | Identifier (text : string)
  | Number (value : Z)
  | Unknown (rawChar : Z).

Definition token_of (code : Z) (s : State) : Token :=
  if code =? tok_eof then EndOfInput
  else if code =? tok_bracket_open then OpenParen
  else if code =? tok_bracket_close then CloseParen
  else if code =? tok_identifier then Identifier (IdentifierStr s)
  else if code =? tok_number then Number (NumVal s)
  else Unknown code.

(** The first [n] tokens [gettok] delivers, stopping after [EndOfInput]. *)
Fixpoint tokens (n : nat) (s : State) : list Token :=
  match n with
  | O => []
  | S n' =>
      let '(code, s') := gettok s in
      token_of code s' ::
        (if code =? tok_eof then [] else tokens n' s')
  end.

(** Lexing to end of input: [Some] of the whole token sequence, ending in
    [EndOfInput], when [fuel] calls of [gettok] reach it. *)
Fixpoint lex (fuel : nat) (s : State) : option (list Token) :=
  match fuel with
  | O => None
  | S fuel' =>
      let '(code, s') := gettok s in
      if code =? tok_eof then Some [EndOfInput]
      else option_map (cons (token_of code s')) (lex fuel' s')
  end.

(** ** Parser *)

(** What a call that may not return produces under a fuel bound: either the
    bound was too small, or the call returned [r] and left the state [s]. *)
Inductive Outcome (A : Type) : Type :=
  | OutOfFuel
  | Done (r : A) (s : State).
Arguments OutOfFuel {A}.
Arguments Done {A} r s.

(** A call never returns: no fuel bound is enough (it loops or recurses
    without bound; on a machine, until the call stack is exhausted). *)
Definition diverges {A : Type} (run : nat -> Outcome A) : Prop :=
  forall fuel : nat, run fuel = OutOfFuel.

(** A call returns [r] in state [s] (for some, hence every larger, bound). *)
Definition returns {A : Type} (run : nat -> Outcome A) (r : A) (s : State) : Prop :=
  exists fuel : nat, run fuel = Done r s.

(** [Error(Str)]: one line on standard error, and a null pointer. *)
Definition Error (Str : string) (s : State) : Outcome (option ExprAST) :=
  Done None (eprint ("Error: " +:+ Str +:+ String (ascii_of_N 10) EmptyString) s).

Definition unknown_token_msg : string :=
  "unknown token when expecting an expression".

(** [getNextToken]: [return CurTok = gettok();] *)
Definition getNextToken (s : State) : State :=
  let '(code, s') := gettok s in set_CurTok code s'.

(** [ParseNumberExpr]: build the node from [NumVal], then consume the number. *)
Definition ParseNumberExpr (s : State) : Outcome (option ExprAST) :=
  let Result := NumberExprAST (NumVal s) in
  Done (Some Result) (getNextToken s).

(** [ParseIdentifierExpr]: build the node from [IdentifierStr]; nothing else. *)
Definition ParseIdentifierExpr (s : State) : Outcome (option ExprAST) :=
  Done (Some (IdentifierExprAST (IdentifierStr s))) s.

(** [ParseExpr] and [ParseListExpr] call each other; [ParseListLoop] is the
    [while (1)] loop of [ParseListExpr], entered with the items pushed so
    far. *)
Fixpoint ParseExpr (fuel : nat) (s : State) : Outcome (option ExprAST) :=
  match fuel with
  | O => OutOfFuel
  | S fuel' =>
      if CurTok s =? tok_identifier then ParseIdentifierExpr s
      else if CurTok s =? tok_number then ParseNumberExpr s
      else if CurTok s =? tok_bracket_open then ParseListExpr fuel' s
      else Error unknown_token_msg s
  end
with ParseListExpr (fuel : nat) (s : State) : Outcome (option ExprAST) :=
  match fuel with
  | O => OutOfFuel
  | S fuel' => ParseListLoop fuel' [] (getNextToken s)     (* eat ( *)
  end
with ParseListLoop (fuel : nat) (Items : list ExprAST) (s : State)
  : Outcome (option ExprAST) :=
  match fuel with
  | O => OutOfFuel
  | S fuel' =>
      match ParseExpr fuel' s with
      | OutOfFuel => OutOfFuel
      | Done None s1 => Done None s1                        (* return nullptr *)
      | Done (Some V) s1 =>
          let Items' := Items ++ [V] in                     (* push_back *)
          if CurTok s1 =? tok_bracket_close
          then Done (Some (ListExprAST Items')) (getNextToken s1)  (* eat ) *)
          else ParseListLoop fuel' Items' (getNextToken s1)
      end
  end.

(** Parsing the text on standard input as the driver starts it: load the
    first token, then parse one expression. *)
Definition parse (text : string) (fuel : nat) : Outcome (option ExprAST) :=
  ParseExpr fuel (getNextToken (initial text)).

(** ** Driver *)

(** [fprintf(stderr, "ERROR\tCharacter can not be processed: %c", CurTok)] *)
Definition cannot_process_msg (tok : Z) : string :=
  "ERROR" +:+ String (ascii_of_N 9) EmptyString +:+
  "Character can not be processed: " +:+ String (char_of_int tok) EmptyString.

(** The body of [main]'s [while (true)]: every arm of the [switch] returns,
    and the [tok_bracket_open] arm has no [break], so control falls from
    [ParseListExpr()] (whose result is dropped) into [default]. *)
Definition main_loop (fuel : nat) (s : State) : Outcome Z :=
  let s := eprint "ready> " s in
  if CurTok s =? tok_eof then Done 0 s
  else if CurTok s =? tok_bracket_open then
    match ParseListExpr fuel s with
    | OutOfFuel => OutOfFuel
    | Done _ s' => Done (-2) (eprint (cannot_process_msg (CurTok s')) s')
    end
  else Done (-2) (eprint (cannot_process_msg (CurTok s)) s).

(** [main] on the text waiting on standard input; the result is the exit
    status. *)
Definition main (text : string) (fuel : nat) : Outcome Z :=
  main_loop fuel (getNextToken (eprint "ready> " (initial text))).

(** ** Code generation *)

(** [ErrorV(Str)]: [Error(Str); return nullptr;] *)
Definition ErrorV (Str : string) (s : State) : option Value * State :=
  match Error Str s with
  | Done _ s' => (None, s')
  | OutOfFuel => (None, s)
  end.

(** [NamedValues[Name]]: [std::map::operator[]] value-initialises a missing
    entry (to [nullptr]) before returning it. *)
Definition NamedValues_subscript (Name : string) (s : State) : option Value * State :=
  match NamedValues s !! Name with
  | Some V => (V, s)
  | None => (None, set_NamedValues (<[Name := None]> (NamedValues s)) s)
  end.

(** [NumberExprAST::codegen] *)
Definition codegen_Number (Val : Z) (s : State) : option Value * State :=
  (Some (ConstantInt 32 Val), s).

(** [IdentifierExprAST::codegen] *)
Definition codegen_Identifier (Name : string) (s : State) : option Value * State :=
  let '(V, s1) := NamedValues_subscript Name s in
  match V with
  | None => let '(_, s2) := ErrorV "Unknown variable name" s1 in (V, s2)
  | Some _ => (V, s1)
  end.

(** Virtual dispatch of [codegen].  [ListExprAST::codegen] has an empty body
    and returns no value: it has no defined result. *)
Definition codegen (e : ExprAST) (s : State) : option (option Value * State) :=
  match e with
  | NumberExprAST Val => Some (codegen_Number Val s)
  | IdentifierExprAST Name => Some (codegen_Identifier Name s)
  | ListExprAST _ => None
  end.

(** ** Spec-side notions used in the statements *)

(** The base-10 value a run of digit characters denotes, positionally: the
    first digit weighs ten to the number of digits that follow it. *)
Fixpoint decimal_value (digits : list Z) : Z :=
  match digits with
  | [] => 0
  | d :: rest => (d - 48) * 10 ^ Z.of_nat (length rest) + decimal_value rest
  end.

(** A decimal digit character, and a string made of them. *)
Definition is_digit (c : Z) : Prop := 48 <= c <= 57.

Fixpoint digits_only (Str : string) : Prop :=
  match Str with
  | EmptyString => True
  | String a rest => isdigit (Z.of_N (N_of_ascii a)) = true /\ digits_only rest
  end.

(** Horner's rule over the characters still to read. *)
Definition horner (acc : Z) (digits : list Z) : Z :=
  fold_left (fun a c => 10 * a + (c - 48)) digits acc.

(** A result reached with some fuel is reached with any larger amount. *)
Definition monotone {A : Type} (run : nat -> Outcome A) : Prop :=
  forall n r s, run n = Done r s -> forall m, (n <= m)%nat -> run m = Done r s.

(** The lexer is stuck on ['(']: it is in [LastChar] and is the current
    token. *)
Definition stuck_on_open (s : State) : Prop :=
  LastChar s = 40 /\ CurTok s = tok_bracket_open.

(** The state [ParseListExpr] would be entered in had [gettok] moved past
    the ['(']: the parenthesis is the current token and [LastChar] holds the
    first character of [text], whose remaining characters wait on standard
    input. *)
Definition after_open_paren (c : Z) (text : string) : State :=
  set_CurTok tok_bracket_open (set_lexer c (chars_of text) (initial "")).

(** The line [ErrorV("Unknown variable name")] writes. *)
Definition unknown_variable_line : string :=
  "Error: Unknown variable name
".

(** ** Further notions for the statements about the whole program *)

(** [enum class ExprType], and [ExprAST::getType]: each subclass hands its
    own tag to the base-class constructor. *)
Inductive ExprType : Type :=
  | ExprType_Number
  | ExprType_Identifier
  | ExprType_List.

Definition getType (e : ExprAST) : ExprType :=
  match e with
  | NumberExprAST _ => ExprType_Number
  | IdentifierExprAST _ => ExprType_Identifier
  | ListExprAST _ => ExprType_List
  end.

(** The [std::string] holding the characters [l], in order. *)
Definition string_of_chars (l : list Z) : string :=
  string_of_list_ascii (map char_of_int l).

(** A value [getchar] can deliver as a character (not [EOF]). *)
Definition is_char (c : Z) : Prop := 0 <= c <= 255.

(** The lexer's variables hold what [getchar] can have put there. *)
Definition wf_lexer (s : State) : Prop :=
  -1 <= LastChar s <= 255 /\ Forall is_char (stdin s).

(** [tail] does not continue a run of characters satisfying [p]: it is
    empty, or starts with a character that fails [p]. *)
Definition ends_run (p : Z -> bool) (tail : list Z) : Prop :=
  match tail with
  | [] => True
  | c :: _ => p c = false
  end.

(** What [LastChar = getchar()] leaves when [tail] is on standard input. *)
Definition getchar_from (tail : list Z) : Z * list Z :=
  match tail with
  | [] => (EOF, [])
  | c :: rest => (c, rest)
  end.

(** A character the lexer has no rule for. *)
Definition unknown_char (c : Z) : bool :=
  (0 <=? c) && (c <=? 255) && negb (isspace c) && negb (c =? 40) &&
  negb (c =? 41) && negb (isalnum c).

(** The token the lexer repeats when one of ['('], [')'], ['0'] is in
    [LastChar]. *)
Definition stuck_token (c : Z) : Token :=
  if c =? 40 then OpenParen else if c =? 41 then CloseParen else Number 0.

(** One of the five codes of [enum Token]. *)
Definition known_code (code : Z) : Prop :=
  code = tok_eof \/ code = tok_bracket_open \/ code = tok_bracket_close \/
  code = tok_identifier \/ code = tok_number.

(** The diagnostics a parser call adds to standard error: the one line of
    [Error] when it returns null, nothing when it returns a node. *)
Definition parser_diagnostics (r : option ExprAST) : list string :=
  match r with
  | Some _ => []
  | None => ["Error: unknown token when expecting an expression
"]
  end.

(** The first character of [text] that is not white space is [c]. *)
Definition first_significant (text : string) (c : Z) : Prop :=
  exists ws rest,
    chars_of text = ws ++ c :: rest /\
    Forall (fun w => isspace w = true) ws /\ isspace c = false.

(** Two states hold the same unread input. *)
Definition same_input (s1 s2 : State) : Prop :=
  LastChar s1 = LastChar s2 /\ stdin s1 = stdin s2.

(** The loop of [ParseListExpr], entered with the items [Items0] in state
    [s0], comes to ask for a further child with the items [Items] in state
    [s]: every child in between was parsed, did not end on [')'], and was
    followed by the loop's [getNextToken()]. *)
Inductive loop_reaches : list ExprAST -> State -> list ExprAST -> State -> Prop :=
  | loop_reaches_here (Items : list ExprAST) (s : State) :
      loop_reaches Items s Items s
  | loop_reaches_next (Items0 : list ExprAST) (s0 s1 : State) (V : ExprAST)
                      (Items : list ExprAST) (s : State) :
      returns (fun fuel => ParseExpr fuel s0) (Some V) s1 ->
      CurTok s1 <> tok_bracket_close ->
      loop_reaches (Items0 ++ [V]) (getNextToken s1) Items s ->
      loop_reaches Items0 s0 Items s.

(** The call of [ParseListExpr] in state [s] comes to call [ParseExpr] for a
    child in state [sk]: a child of its own list, after any number of
    children parsed before it, or a child of a list nested in it at any
    depth. *)
Inductive encloses : State -> State -> Prop :=
  | encloses_child (s : State) (Items : list ExprAST) (sk : State) :
      loop_reaches [] (getNextToken s) Items sk ->
      encloses s sk
  | encloses_nested (s : State) (Items : list ExprAST) (sm sk : State) :
      loop_reaches [] (getNextToken s) Items sm ->
      CurTok sm = tok_bracket_open ->
      encloses sm sk ->
      encloses s sk.

(** * Properties *)

(** ** Lexer *)

Lemma set_lexer_same (s : State) : set_lexer (LastChar s) (stdin s) s = s.
Proof. destruct s; reflexivity. Qed.

Lemma skip_whitespace_nonspace (c : Z) (inp : list Z) :
  isspace c = false -> skip_whitespace c inp = (c, inp).
Proof. intros H. destruct inp; simpl; rewrite H; reflexivity. Qed.

(** With ['('] in [LastChar], [gettok] answers [tok_bracket_open] and leaves
    [LastChar] and standard input as they were. *)
Lemma gettok_open_paren (s : State) :
  LastChar s = 40 ->
  gettok s = (tok_bracket_open,
              set_IdentifierStr (push_char (IdentifierStr s) 40) s).
Proof.
  intros H. unfold gettok.
  rewrite H, skip_whitespace_nonspace by reflexivity.
  rewrite <- H, set_lexer_same, H. reflexivity.
Qed.

(** With ['0'] in [LastChar], [gettok] answers [tok_number] with value 0 and
    leaves [LastChar] and standard input as they were. *)
Lemma gettok_zero (s : State) :
  LastChar s = 48 -> gettok s = (tok_number, set_NumVal 0 s).
Proof.
  intros H. unfold gettok.
  rewrite H, skip_whitespace_nonspace by reflexivity.
  rewrite <- H, set_lexer_same, H. reflexivity.
Qed.

Lemma tokens_open_paren_forever (n : nat) (s : State) :
  LastChar s = 40 -> tokens n s = repeat OpenParen n.
Proof.
  revert s. induction n as [|n IH]; intros s H; [reflexivity|].
  simpl. rewrite (gettok_open_paren s H). simpl. f_equal. apply IH.
  destruct s; exact H.
Qed.

Lemma tokens_zero_forever (n : nat) (s : State) :
  LastChar s = 48 -> tokens n s = repeat (Number 0) n.
Proof.
  revert s. induction n as [|n IH]; intros s H; [reflexivity|].
  simpl. rewrite (gettok_zero s H). simpl. f_equal. apply IH.
  destruct s; exact H.
Qed.

Lemma lex_zero_never_ends (fuel : nat) (s : State) :
  LastChar s = 48 -> lex fuel s = None.
Proof.
  revert s. induction fuel as [|n IH]; intros s H; [reflexivity|].
  simpl. rewrite (gettok_zero s H). simpl. rewrite IH; [reflexivity|].
  destruct s; exact H.
Qed.

(** C2 (the code departs from the claim): on the input [()] every call of
    [gettok] answers [OpenParen]; the parenthesis stays in [LastChar], so the
    character after it is never classified and [CloseParen] never comes. *)
Theorem gettok_paren_never_consumed :
  forall n : nat, tokens n (initial "()") = repeat OpenParen n.
Proof.
  intros [|n]; [reflexivity|].
  change (tokens (S n) (initial "()")) with
    (OpenParen :: tokens n (snd (gettok (initial "()")))).
  simpl repeat. f_equal. apply tokens_open_paren_forever. reflexivity.
Qed.

(** C3 (the code departs from the claim): on the input [007] every call of
    [gettok] answers [Number 0]; the digit ['0'] stays in [LastChar], so the
    tokens are not [0 0 7 EndOfInput], and lexing never reaches the end of
    the input. *)
Theorem gettok_zero_never_consumed :
  (forall n : nat, tokens n (initial "007") = repeat (Number 0) n) /\
  (forall fuel : nat, lex fuel (initial "007") = None).
Proof.
  split.
  - intros [|n]; [reflexivity|].
    change (tokens (S n) (initial "007")) with
      (Number 0 :: tokens n (snd (gettok (initial "007")))).
    simpl repeat. f_equal. apply tokens_zero_forever. reflexivity.
  - intros [|n]; [reflexivity|].
    change (lex (S n) (initial "007")) with
      (option_map (cons (Number 0)) (lex n (snd (gettok (initial "007"))))).
    rewrite lex_zero_never_ends; reflexivity.
Qed.

(** *** Non-zero numbers *)

Lemma isdigit_true (c : Z) : is_digit c -> isdigit c = true.
Proof. unfold is_digit, isdigit. lia. Qed.

Lemma code_of_char (c : Z) :
  0 <= c < 256 -> Z.of_N (N_of_ascii (char_of_int c)) = c.
Proof.
  intros H. unfold char_of_int.
  rewrite Z.mod_small by lia.
  rewrite N_ascii_embedding by lia. lia.
Qed.

(** Appending a digit to a digit string multiplies its reading by ten and
    adds the digit. *)
Lemma strtod_from_push (Str : string) (acc c : Z) :
  digits_only Str -> is_digit c ->
  strtod_from acc (push_char Str c) = 10 * strtod_from acc Str + (c - 48).
Proof.
  intros HS Hc. revert acc HS.
  induction Str as [|a rest IH]; intros acc HS; simpl.
  - unfold digit_of. rewrite code_of_char by (unfold is_digit in Hc; lia).
    rewrite isdigit_true by exact Hc. reflexivity.
  - destruct HS as [Ha Hrest]. rewrite Ha. apply IH. exact Hrest.
Qed.

Lemma digits_only_push (Str : string) (c : Z) :
  digits_only Str -> is_digit c -> digits_only (push_char Str c).
Proof.
  intros HS Hc. induction Str as [|a rest IH]; simpl.
  - rewrite code_of_char by (unfold is_digit in Hc; lia).
    split; [apply isdigit_true; exact Hc | exact I].
  - destruct HS as [Ha Hrest]. split; [exact Ha | apply IH; exact Hrest].
Qed.

Lemma horner_decimal_value (digits : list Z) (acc : Z) :
  horner acc digits = acc * 10 ^ Z.of_nat (length digits) + decimal_value digits.
Proof.
  unfold horner. revert acc.
  induction digits as [|d rest IH]; intros acc; simpl fold_left.
  - simpl. lia.
  - rewrite IH. cbn [length decimal_value].
    rewrite Nat2Z.inj_succ, Z.pow_succ_r by lia. ring.
Qed.

(** On a run of digits that lasts to the end of the input, the [do]/[while]
    loop reads them all and leaves [EOF] in [LastChar]. *)
Lemma read_number_digits (rest : list Z) (NumStr : string) (c : Z) :
  digits_only NumStr -> is_digit c -> Forall is_digit rest ->
  exists NumStr',
    read_number NumStr c rest = (NumStr', EOF, []) /\
    digits_only NumStr' /\
    strtod NumStr' = horner (strtod NumStr) (c :: rest).
Proof.
  revert NumStr c.
  induction rest as [|c' rest IH]; intros NumStr c HS Hc Hrest.
  - exists (push_char NumStr c). simpl. split; [reflexivity|].
    split; [apply digits_only_push; assumption|].
    unfold strtod. apply strtod_from_push; assumption.
  - inversion Hrest as [|? ? Hc' Hrest']; subst.
    destruct (IH (push_char NumStr c) c') as (N & Hread & HN & Hval);
      [apply digits_only_push; assumption | assumption | assumption |].
    exists N. split.
    + cbn [read_number]. rewrite (isdigit_true c' Hc'). exact Hread.
    + split; [exact HN|]. rewrite Hval. unfold horner. cbn [fold_left].
      unfold strtod. rewrite (strtod_from_push NumStr 0 c) by assumption.
      reflexivity.
Qed.

Lemma decimal_value_nonneg (digits : list Z) :
  Forall is_digit digits -> 0 <= decimal_value digits.
Proof.
  induction 1 as [|d rest Hd _ IH]; simpl; [lia|].
  unfold is_digit in Hd.
  assert (0 <= 10 ^ Z.of_nat (length rest)) by (apply Z.pow_nonneg; lia).
  nia.
Qed.

(** The first token of an input that starts with a non-zero digit followed
    by digits only. *)
Lemma gettok_number (d : Z) (rest : list Z) :
  49 <= d <= 57 -> Forall is_digit rest ->
  decimal_value (d :: rest) <= INT_MAX ->
  gettok (initial_chars (d :: rest)) =
    (tok_number,
     set_NumVal (decimal_value (d :: rest))
       (set_lexer EOF [] (set_lexer d rest (initial_chars (d :: rest))))).
Proof.
  intros Hd Hrest Hmax.
  assert (Hdig : is_digit d) by (unfold is_digit; lia).
  destruct (read_number_digits rest EmptyString d I Hdig Hrest)
    as (N & Hread & _ & Hval).
  unfold gettok. cbn [initial_chars LastChar stdin skip_whitespace].
  replace (isspace 32) with true by reflexivity.
  rewrite skip_whitespace_nonspace by (unfold isspace; lia).
  replace (d =? 40) with false by lia.
  replace (d =? 41) with false by lia.
  replace (isalpha d) with false by (unfold isalpha; lia).
  rewrite (isdigit_true d Hdig).
  replace (d =? 48) with false by lia.
  rewrite Hread. f_equal. f_equal.
  rewrite Hval. change (strtod EmptyString) with 0.
  rewrite horner_decimal_value. rewrite Z.mul_0_l, Z.add_0_l.
  unfold int_of_double.
  assert (0 <= decimal_value (d :: rest))
    by (apply decimal_value_nonneg; constructor; assumption).
  replace (INT_MIN <=? decimal_value (d :: rest)) with true
    by (unfold INT_MIN; lia).
  replace (decimal_value (d :: rest) <=? INT_MAX) with true by lia.
  reflexivity.
Qed.

(** C8 (as amended): a digit-only input [1-9][0-9]* whose value fits an
    [int] lexes to exactly one [Number] token, carrying the base-10 value of
    the whole run, followed by [EndOfInput]. *)
Theorem lex_number_value (d : Z) (rest : list Z) :
  49 <= d <= 57 -> Forall is_digit rest ->
  decimal_value (d :: rest) <= INT_MAX ->
  lex 2 (initial_chars (d :: rest)) =
    Some [Number (decimal_value (d :: rest)); EndOfInput].
Proof.
  intros Hd Hrest Hmax.
  cbn [lex]. rewrite (gettok_number d rest Hd Hrest Hmax).
  reflexivity.
Qed.

(** C8, an instance: the input [123]. *)
Lemma lex_number_value_witness :
  lex 2 (initial "123") = Some [Number 123; EndOfInput].
Proof.
  apply (lex_number_value 49 [50; 51]).
  - lia.
  - repeat constructor; unfold is_digit; lia.
  - vm_compute. discriminate.
Defined.

(** C8 (the claim as stated fails): the digit run [2147483648] is one more
    than the largest [int]; the [Number] token the lexer yields carries
    another value. *)
Lemma lex_number_overflow :
  decimal_value (chars_of "2147483648") = 2147483648 /\
  lex 2 (initial "2147483648") = Some [Number (-2147483648); EndOfInput].
Proof. split; reflexivity. Qed.

(** ** Parser *)

(** *** Fuel *)

(** More fuel never changes a result already reached. *)
Lemma parser_fuel_mono (n : nat) :
  (forall s r s', ParseExpr n s = Done r s' ->
     forall m, (n <= m)%nat -> ParseExpr m s = Done r s') /\
  (forall s r s', ParseListExpr n s = Done r s' ->
     forall m, (n <= m)%nat -> ParseListExpr m s = Done r s') /\
  (forall Items s r s', ParseListLoop n Items s = Done r s' ->
     forall m, (n <= m)%nat -> ParseListLoop m Items s = Done r s').
Proof.
  induction n as [|n (IHe & IHl & IHw)].
  - repeat split; intros; discriminate.
  - repeat split.
    + intros s r s' H [|m] Hm; [lia|]. cbn [ParseExpr] in *.
      destruct (CurTok s =? tok_identifier); [exact H|].
      destruct (CurTok s =? tok_number); [exact H|].
      destruct (CurTok s =? tok_bracket_open); [|exact H].
      apply (IHl _ _ _ H). lia.
    + intros s r s' H [|m] Hm; [lia|]. cbn [ParseListExpr] in *.
      apply (IHw _ _ _ _ H). lia.
    + intros Items s r s' H [|m] Hm; [lia|]. cbn [ParseListLoop] in *.
      destruct (ParseExpr n s) as [|r1 s1] eqn:He; [discriminate|].
      rewrite (IHe _ _ _ He m) by lia.
      destruct r1 as [V|]; [|exact H].
      destruct (CurTok s1 =? tok_bracket_close); [exact H|].
      apply (IHw _ _ _ _ H). lia.
Qed.

Lemma ParseExpr_monotone (s : State) : monotone (fun fuel => ParseExpr fuel s).
Proof. intros n r s' H m Hm. exact (proj1 (parser_fuel_mono n) s r s' H m Hm). Qed.

Lemma ParseListExpr_monotone (s : State) :
  monotone (fun fuel => ParseListExpr fuel s).
Proof.
  intros n r s' H m Hm.
  exact (proj1 (proj2 (parser_fuel_mono n)) s r s' H m Hm).
Qed.

Lemma ParseListLoop_monotone (Items : list ExprAST) (s : State) :
  monotone (fun fuel => ParseListLoop fuel Items s).
Proof.
  intros n r s' H m Hm.
  exact (proj2 (proj2 (parser_fuel_mono n)) Items s r s' H m Hm).
Qed.

(** A call returns at most one result. *)
Lemma returns_unique {A : Type} (run : nat -> Outcome A) (r1 r2 : A) (s1 s2 : State) :
  monotone run -> returns run r1 s1 -> returns run r2 s2 -> r1 = r2 /\ s1 = s2.
Proof.
  intros Hmono [n1 H1] [n2 H2].
  pose proof (Hmono _ _ _ H1 (Nat.max n1 n2) (Nat.le_max_l _ _)) as E1.
  pose proof (Hmono _ _ _ H2 (Nat.max n1 n2) (Nat.le_max_r _ _)) as E2.
  rewrite E1 in E2. inversion E2. split; reflexivity.
Qed.

(** A call that returns does not diverge. *)
Lemma returns_not_diverges {A : Type} (run : nat -> Outcome A) (r : A) (s : State) :
  returns run r s -> ~ diverges run.
Proof. intros [n H] D. rewrite (D n) in H. discriminate. Qed.

(** *** Identifiers *)

(** [ParseExpr] on an identifier token builds the node and returns with the
    whole state, [CurTok] included, as it found it. *)
Lemma ParseExpr_identifier (fuel : nat) (s : State) :
  CurTok s = tok_identifier ->
  ParseExpr (S fuel) s = Done (Some (IdentifierExprAST (IdentifierStr s))) s.
Proof. intros H. cbn [ParseExpr]. rewrite H. reflexivity. Qed.

(** C1 (the code departs from the claim): with the tokens of [a b], and the
    first one loaded, [ParseExpr] returns [Identifier a] but the current
    token afterwards is still the identifier [a]: the state is untouched,
    and [b] has not become the current token. *)
Theorem ParseExpr_identifier_not_consumed :
  forall fuel : nat,
    let s := getNextToken (initial "a b") in
    token_of (CurTok s) s = Identifier "a" /\
    ParseExpr (S fuel) s = Done (Some (IdentifierExprAST "a")) s.
Proof.
  intros fuel s. split; [reflexivity|].
  apply (ParseExpr_identifier fuel s). reflexivity.
Qed.

(** *** Lists after an open parenthesis *)

Lemma getNextToken_stuck (s : State) :
  LastChar s = 40 -> stuck_on_open (getNextToken s).
Proof.
  intros H. unfold getNextToken. rewrite (gettok_open_paren s H).
  destruct s; split; [exact H | reflexivity].
Qed.

(** From such a state the parser recurses without end: each [ParseListExpr]
    "eats" the parenthesis, finds it again, and calls [ParseListExpr]. *)
Lemma stuck_parser_diverges (fuel : nat) :
  forall s, stuck_on_open s ->
    ParseExpr fuel s = OutOfFuel /\
    ParseListExpr fuel s = OutOfFuel /\
    (forall Items, ParseListLoop fuel Items s = OutOfFuel).
Proof.
  induction fuel as [|n IH]; intros s Hs; [repeat split|].
  destruct (IH s Hs) as (He & Hl & Hw).
  destruct (IH (getNextToken s) (getNextToken_stuck s (proj1 Hs))) as (_ & _ & Hw').
  repeat split.
  - cbn [ParseExpr]. destruct Hs as [_ Ht]. rewrite Ht. exact Hl.
  - cbn [ParseListExpr]. apply Hw'.
  - intros Items. cbn [ParseListLoop]. rewrite He. reflexivity.
Qed.

Lemma parse_open_paren_diverges (text : string) :
  stuck_on_open (getNextToken (initial text)) -> diverges (parse text).
Proof. intros H fuel. apply (stuck_parser_diverges fuel _ H). Qed.

(** C4 (the code departs from the claim): parsing [()] never returns; no
    [List] node, empty or not, is produced. *)
Theorem parse_empty_list_diverges : diverges (parse "()").
Proof. apply parse_open_paren_diverges. split; reflexivity. Qed.

(** C5 (the code departs from the claim): parsing [(a 1 2)] never returns;
    no [List] node is produced. *)
Theorem parse_three_items_diverges : diverges (parse "(a 1 2)").
Proof. apply parse_open_paren_diverges. split; reflexivity. Qed.

(** The loop of [ParseListExpr] after a child that did not end on [')']:
    [getNextToken()] runs before the next child is parsed. *)
Lemma ParseListLoop_continue (fuel : nat) (Items : list ExprAST)
      (s s1 : State) (V : ExprAST) :
  ParseExpr fuel s = Done (Some V) s1 ->
  CurTok s1 <> tok_bracket_close ->
  ParseListLoop (S fuel) Items s =
    ParseListLoop fuel (Items ++ [V]) (getNextToken s1).
Proof.
  intros He Hne. cbn [ParseListLoop]. rewrite He.
  destruct (Z.eqb_spec (CurTok s1) tok_bracket_close); [contradiction|].
  reflexivity.
Qed.

(** From the state past the ['('] of [(a 1 2)]: the child [1] is consumed by
    [ParseNumberExpr], the loop's [getNextToken()] then drops the token [2],
    and the next child is looked for at [')']: the list is abandoned. *)
Example list_a_1_2_past_paren :
  ParseListExpr 5 (after_open_paren 97 " 1 2)") =
    Error unknown_token_msg
      (set_CurTok tok_bracket_close
         (set_NumVal 2
            (set_IdentifierStr "a)"
               (set_lexer 41 [] (initial ""))))).
Proof. reflexivity. Qed.

(** From the state past the ['('] of [()]: a child is asked for before the
    current token is compared with [')'], so the empty list is refused. *)
Example list_empty_past_paren :
  ParseListExpr 3 (after_open_paren 41 "") =
    Error unknown_token_msg
      (set_CurTok tok_bracket_close
         (set_IdentifierStr ")" (set_lexer 41 [] (initial "")))).
Proof. reflexivity. Qed.

(** From the state past the ['('] of [(a 1)] the list is built. *)
Example list_a_1_past_paren :
  exists s',
    ParseListExpr 4 (after_open_paren 97 " 1)") =
      Done (Some (ListExprAST [IdentifierExprAST "a"; NumberExprAST 1])) s'.
Proof. eexists. reflexivity. Qed.

(** *** End of input inside a list *)

(** From the state past the ['('] of [(a b]: at end of input the list is
    given up with the diagnostic every unusable token gets. *)
Example list_a_b_past_paren :
  ParseListExpr 5 (after_open_paren 97 " b") =
    Error unknown_token_msg
      (set_CurTok tok_eof
         (set_IdentifierStr "b" (set_lexer EOF [] (initial "")))).
Proof. reflexivity. Qed.

(** C6 (the code departs from the claim): parsing [(a b] never returns, so
    it does not fail with [UnterminatedList] or with any other error: the
    ['('] that [ParseListExpr] means to eat stays the current token. *)
Lemma parse_unterminated_diverges : diverges (parse "(a b").
Proof. apply parse_open_paren_diverges. split; reflexivity. Qed.

(** [ParseExpr] on a token that starts no expression: the one diagnostic of
    the parser, and a null pointer. *)
Lemma ParseExpr_unknown_token (fuel : nat) (s : State) :
  CurTok s <> tok_identifier -> CurTok s <> tok_number ->
  CurTok s <> tok_bracket_open ->
  ParseExpr (S fuel) s = Error unknown_token_msg s.
Proof.
  intros H1 H2 H3. cbn [ParseExpr].
  destruct (Z.eqb_spec (CurTok s) tok_identifier); [contradiction|].
  destruct (Z.eqb_spec (CurTok s) tok_number); [contradiction|].
  destruct (Z.eqb_spec (CurTok s) tok_bracket_open); [contradiction|].
  reflexivity.
Qed.

(** When the loop of [ParseListExpr] is entered and the current token is end
    of input, [ParseExpr] writes the line "Error: unknown token when
    expecting an expression" and returns null, and so does the loop,
    whatever items it was entered with.  A [')'] is answered the same
    way. *)
Lemma ParseListLoop_end_of_input (fuel : nat) (Items : list ExprAST) (s : State) :
  CurTok s = tok_eof ->
  ParseExpr (S fuel) s = Error unknown_token_msg s /\
  ParseListLoop (S (S fuel)) Items s = Error unknown_token_msg s /\
  (forall s2, CurTok s2 = tok_bracket_close ->
     ParseExpr (S fuel) s2 = Error unknown_token_msg s2).
Proof.
  intros H.
  assert (He : ParseExpr (S fuel) s = Error unknown_token_msg s)
    by (apply ParseExpr_unknown_token; rewrite H; discriminate).
  split; [exact He|]. split.
  - cbn [ParseListLoop]. rewrite He. reflexivity.
  - intros s2 H2. apply ParseExpr_unknown_token; rewrite H2; discriminate.
Qed.

(** An instance: the input is exhausted, the current token is [tok_eof],
    and the loop is entered with one item. *)
Lemma ParseListLoop_end_of_input_witness :
  ParseListLoop 2 [IdentifierExprAST "a"] (getNextToken (initial "")) =
    Error unknown_token_msg (getNextToken (initial "")).
Proof.
  apply (ParseListLoop_end_of_input 0 [IdentifierExprAST "a"]
           (getNextToken (initial ""))).
  reflexivity.
Defined.

(** *** Failure of a child *)

(** One turn of the loop: if the call of [ParseExpr] it starts with returns
    null, the loop returns null in the very state that call left, whatever
    items it was entered with; and it returns nothing else. *)
Lemma ParseListLoop_child_failure (Items : list ExprAST) (s s' : State) :
  returns (fun fuel => ParseExpr fuel s) None s' ->
  returns (fun fuel => ParseListLoop fuel Items s) None s' /\
  (forall r s'', returns (fun fuel => ParseListLoop fuel Items s) r s'' ->
     r = None /\ s'' = s').
Proof.
  intros [n Hn].
  assert (Hloop : returns (fun fuel => ParseListLoop fuel Items s) None s').
  { exists (S n). cbn [ParseListLoop]. rewrite Hn. reflexivity. }
  split; [exact Hloop|].
  intros r s'' Hr.
  destruct (returns_unique _ _ _ _ _ (ParseListLoop_monotone Items s) Hr Hloop).
  split; assumption.
Qed.

(** An instance: the loop entered with one item, at a [')']. *)
Lemma ParseListLoop_child_failure_witness :
  returns (fun fuel => ParseListLoop fuel [NumberExprAST 1] (getNextToken (initial ")")))
    None (eprint "Error: unknown token when expecting an expression
" (getNextToken (initial ")"))).
Proof.
  apply (ParseListLoop_child_failure [NumberExprAST 1] (getNextToken (initial ")"))).
  exists 1%nat. reflexivity.
Defined.

(** A nested list whose child fails makes the enclosing list fail. *)
Lemma nested_list_failure (Items : list ExprAST) (s s' : State) :
  CurTok s = tok_bracket_open ->
  returns (fun fuel => ParseExpr fuel (getNextToken s)) None s' ->
  returns (fun fuel => ParseListLoop fuel Items s) None s'.
Proof.
  intros Ht [n Hn]. exists (S (S (S (S n)))).
  cbn [ParseListLoop ParseExpr ParseListExpr]. rewrite Ht.
  cbn [Z.eqb tok_bracket_open tok_identifier tok_number Pos.eqb].
  rewrite Hn. reflexivity.
Qed.

(** Whatever the loop returns once it has come to a later child, it returns
    from where it was entered. *)
Lemma loop_reaches_returns (Items0 Items : list ExprAST) (s0 s : State) :
  loop_reaches Items0 s0 Items s ->
  forall r s',
    returns (fun fuel => ParseListLoop fuel Items s) r s' ->
    returns (fun fuel => ParseListLoop fuel Items0 s0) r s'.
Proof.
  induction 1 as [Items s | Items0 s0 s1 V Items s [m Hchild] Hne _ IH];
    intros r s' Hr; [exact Hr|].
  destruct (IH r s' Hr) as [n Hn].
  exists (S (Nat.max m n)). cbn [ParseListLoop].
  rewrite (ParseExpr_monotone s0 m _ _ Hchild (Nat.max m n) (Nat.le_max_l m n)).
  destruct (Z.eqb_spec (CurTok s1) tok_bracket_close); [contradiction|].
  exact (ParseListLoop_monotone _ _ n _ _ Hn (Nat.max m n) (Nat.le_max_r m n)).
Qed.

(** A null child of the list itself, after any number of children. *)
Lemma ParseListExpr_own_child_failure (s sk s' : State) (Items : list ExprAST) :
  loop_reaches [] (getNextToken s) Items sk ->
  returns (fun fuel => ParseExpr fuel sk) None s' ->
  returns (fun fuel => ParseListExpr fuel s) None s'.
Proof.
  intros Hreach [n Hn].
  assert (Hloop : returns (fun fuel => ParseListLoop fuel Items sk) None s').
  { exists (S n). cbn [ParseListLoop]. rewrite Hn. reflexivity. }
  destruct (loop_reaches_returns _ _ _ _ Hreach None s' Hloop) as [k Hk].
  exists (S k). cbn [ParseListExpr]. exact Hk.
Qed.

(** A list that fails is a failed expression where it stands. *)
Lemma ParseExpr_list_failure (s s' : State) :
  CurTok s = tok_bracket_open ->
  returns (fun fuel => ParseListExpr fuel s) None s' ->
  returns (fun fuel => ParseExpr fuel s) None s'.
Proof.
  intros Ht [n Hn]. exists (S n). cbn [ParseExpr]. rewrite Ht.
  cbn [Z.eqb tok_bracket_open tok_identifier tok_number Pos.eqb].
  exact Hn.
Qed.

(** C9: if a call of [ParseExpr] for a child returns null -- whichever
    child it is, the first or one that follows children already parsed, a
    child of the list itself or of a list nested in it at any depth -- then
    [ParseListExpr] returns null as well, in the very state that child left
    (nothing more is read, nothing more is reported); it returns nothing
    else, so no list holding the children parsed so far comes back. *)
Theorem ParseListExpr_child_failure (s sk s' : State) :
  encloses s sk ->
  returns (fun fuel => ParseExpr fuel sk) None s' ->
  returns (fun fuel => ParseListExpr fuel s) None s' /\
  (forall r s'', returns (fun fuel => ParseListExpr fuel s) r s'' ->
     r = None /\ s'' = s').
Proof.
  intros Henc Hchild.
  assert (Hfail : returns (fun fuel => ParseListExpr fuel s) None s').
  { induction Henc as [s Items sk Hreach | s Items sm sk Hreach Hopen _ IH].
    - exact (ParseListExpr_own_child_failure s sk s' Items Hreach Hchild).
    - apply (ParseListExpr_own_child_failure s sm s' Items Hreach).
      apply (ParseExpr_list_failure sm s' Hopen).
      exact (IH Hchild). }
  split; [exact Hfail|].
  intros r s'' Hr.
  destruct (returns_unique _ _ _ _ _ (ParseListExpr_monotone s) Hr Hfail).
  split; assumption.
Qed.

(** C9, an instance: [ParseListExpr] called on the input [a +].  The child
    [a] is parsed; the next child is looked for at [+] and fails; the list
    parse returns null in the state that failure left, and the item [a] is
    not returned. *)
Lemma ParseListExpr_child_failure_witness :
  returns (fun fuel => ParseListExpr fuel (initial "a +")) None
    (eprint "Error: unknown token when expecting an expression
" (getNextToken (getNextToken (initial "a +")))).
Proof.
  apply (ParseListExpr_child_failure (initial "a +")
           (getNextToken (getNextToken (initial "a +")))).
  - apply (encloses_child _ [IdentifierExprAST "a"]).
    apply (loop_reaches_next [] (getNextToken (initial "a +"))
             (getNextToken (initial "a +")) (IdentifierExprAST "a")).
    + exists 1%nat. reflexivity.
    + discriminate.
    + apply loop_reaches_here.
  - exists 1%nat. reflexivity.
Defined.

(** ** Driver *)

(** When the current token is ['('], the only exit status [main]'s loop can
    produce is -2: after [ParseListExpr()] control falls into [default]. *)
Lemma main_loop_open_paren (fuel : nat) (s s' : State) (status : Z) :
  CurTok s = tok_bracket_open ->
  main_loop fuel s = Done status s' -> status = -2.
Proof.
  intros Ht. unfold main_loop. cbn [eprint CurTok]. rewrite Ht.
  cbn [Z.eqb tok_bracket_open tok_eof Pos.eqb].
  destruct (ParseListExpr fuel _) as [|r s1]; [discriminate|].
  intros H. inversion H. reflexivity.
Qed.

(** From the state past the ['('] of [(a 1)], with [(b 2)] to follow: the
    list is parsed, then the driver reports the current token as a character
    it cannot process and stops with status -2; [(b 2)] is never read. *)
Example main_loop_past_paren :
  exists s',
    main_loop 4 (after_open_paren 97 " 1) (b 2)") = Done (-2) s' /\
    stdin s' = chars_of " (b 2)".
Proof. eexists. split; reflexivity. Qed.

(** C7 (the code departs from the claim): on the two well-formed top-level
    expressions [(a 1) (b 2)] the driver never terminates, normally or
    otherwise. *)
Theorem main_two_lists_diverges : diverges (main "(a 1) (b 2)").
Proof.
  intros fuel. unfold main, main_loop.
  set (s := eprint "ready> " (getNextToken (eprint "ready> " (initial "(a 1) (b 2)")))).
  assert (Hs : stuck_on_open s) by (split; reflexivity).
  change (CurTok s =? tok_eof) with false.
  change (CurTok s =? tok_bracket_open) with true.
  cbn iota.
  rewrite (proj1 (proj2 (stuck_parser_diverges fuel s Hs))). reflexivity.
Qed.

(** The driver does end normally on an input with no expression at all. *)
Example main_empty_input : exists s', main "" 0 = Done 0 s'.
Proof. eexists. reflexivity. Qed.

(** ** Code generation *)

(** C10: [codegen] on an identifier that has no entry in [NamedValues]
    writes the diagnostic, returns the null pointer (the same kind of result
    a found entry gives, no separate error value), and leaves [NamedValues]
    with a new entry that maps the name to null: the table has one entry
    more than before. *)
Theorem codegen_unknown_identifier (Name : string) (s : State) :
  NamedValues s !! Name = None ->
  let s' := eprint unknown_variable_line
              (set_NamedValues (<[Name := None]> (NamedValues s)) s) in
  codegen (IdentifierExprAST Name) s = Some (None, s') /\
  stderr s' = stderr s ++ [unknown_variable_line] /\
  NamedValues s' !! Name = Some None /\
  size (NamedValues s') = S (size (NamedValues s)).
Proof.
  intros Hfresh s'. repeat split.
  - cbn [codegen]. unfold codegen_Identifier, NamedValues_subscript.
    rewrite Hfresh. reflexivity.
  - subst s'. cbn [eprint set_NamedValues NamedValues]. apply lookup_insert_eq.
  - subst s'. cbn [eprint set_NamedValues NamedValues].
    apply map_size_insert_None. exact Hfresh.
Qed.

(** C10, an instance: the identifier [x] looked up in the empty table the
    program starts with. *)
Lemma codegen_unknown_identifier_witness :
  codegen (IdentifierExprAST "x") (initial "") =
    Some (None, eprint unknown_variable_line
                  (set_NamedValues (<["x" := None]> ∅) (initial ""))) /\
  size (<["x" := None]> (∅ : gmap string (option Value))) = 1%nat.
Proof.
  destruct (codegen_unknown_identifier "x" (initial "") (lookup_empty _))
    as (Hc & _ & _ & Hsize).
  split; [exact Hc | exact Hsize].
Defined.

(** A second lookup of the same name finds the null entry: it is reported
    again, and the table stays as it is. *)
Lemma codegen_null_entry (Name : string) (s : State) :
  NamedValues s !! Name = Some None ->
  codegen (IdentifierExprAST Name) s = Some (None, eprint unknown_variable_line s).
Proof.
  intros H. cbn [codegen]. unfold codegen_Identifier, NamedValues_subscript.
  rewrite H. reflexivity.
Qed.

(** * Further properties of the program *)

(** ** Lexer: white space *)

Lemma skip_whitespace_any_space (c c' : Z) (inp : list Z) :
  isspace c = true -> isspace c' = true ->
  skip_whitespace c inp = skip_whitespace c' inp.
Proof. intros H H'. destruct inp; simpl; rewrite H, H'; reflexivity. Qed.

Lemma skip_whitespace_app (ws inp : list Z) (c : Z) :
  isspace c = true -> Forall (fun w => isspace w = true) ws ->
  skip_whitespace c (ws ++ inp) = skip_whitespace c inp.
Proof.
  intros Hc Hws. revert c Hc.
  induction Hws as [|w ws Hw _ IH]; intros c Hc; [reflexivity|].
  cbn [app skip_whitespace]. rewrite Hc. rewrite (IH w Hw).
  apply skip_whitespace_any_space; assumption.
Qed.

(** [gettok] looks at the lexer variables only through the first character
    that is not white space. *)
Lemma gettok_after_skip (s1 s2 : State) :
  skip_whitespace (LastChar s1) (stdin s1) = skip_whitespace (LastChar s2) (stdin s2) ->
  IdentifierStr s1 = IdentifierStr s2 -> NumVal s1 = NumVal s2 ->
  CurTok s1 = CurTok s2 -> stderr s1 = stderr s2 ->
  NamedValues s1 = NamedValues s2 ->
  gettok s1 = gettok s2.
Proof.
  intros Hskip Hi Hn Hc He Hm. unfold gettok. rewrite Hskip.
  destruct (skip_whitespace (LastChar s2) (stdin s2)) as [c inp].
  replace (set_lexer c inp s1) with (set_lexer c inp s2); [reflexivity|].
  unfold set_lexer. congruence.
Qed.

(** White space before a token changes neither the token nor the state
    [gettok] leaves: with a white-space character in [LastChar], a run of
    white space at the head of standard input is skipped. *)
Theorem gettok_skips_leading_space (s : State) (c : Z) (ws inp : list Z) :
  isspace c = true -> Forall (fun w => isspace w = true) ws ->
  gettok (set_lexer c (ws ++ inp) s) = gettok (set_lexer c inp s).
Proof.
  intros Hc Hws. apply gettok_after_skip; try reflexivity.
  cbn [set_lexer LastChar stdin]. apply skip_whitespace_app; assumption.
Qed.

Lemma gettok_skips_leading_space_witness :
  gettok (set_lexer 32 (chars_of "  x") (initial "")) =
  gettok (set_lexer 32 (chars_of "x") (initial "")).
Proof.
  apply (gettok_skips_leading_space (initial "") 32 [32; 32] [120]).
  - reflexivity.
  - repeat constructor.
Defined.

(** ** Lexer: identifiers *)

Lemma string_app_assoc (a b c : string) :
  ((a +:+ b) +:+ c = a +:+ (b +:+ c))%string.
Proof.
  induction a as [|x a IH]; [reflexivity|].
  change (String x ((a +:+ b) +:+ c) = String x (a +:+ b +:+ c))%string.
  rewrite IH. reflexivity.
Qed.

Lemma string_app_empty (a : string) : (a +:+ EmptyString)%string = a.
Proof.
  induction a as [|x a IH]; [reflexivity|].
  change (String x (a +:+ EmptyString) = String x a)%string.
  rewrite IH. reflexivity.
Qed.

Lemma set_lexer_at (s : State) (c : Z) (inp : list Z) :
  LastChar s = c -> stdin s = inp -> set_lexer c inp s = s.
Proof. intros <- <-. apply set_lexer_same. Qed.

(** The [while] loop of the identifier rule reads the whole run of letters
    and digits and stops on the character after it. *)
Lemma read_identifier_run (run tail : list Z) (Str : string) :
  Forall (fun c => isalnum c = true) run -> ends_run isalnum tail ->
  read_identifier Str (run ++ tail) =
    ((Str +:+ string_of_chars run)%string,
     fst (getchar_from tail), snd (getchar_from tail)).
Proof.
  intros Hrun Htail. revert Str.
  induction Hrun as [|c run Hc _ IH]; intros Str.
  - cbn [app string_of_chars map string_of_list_ascii].
    rewrite string_app_empty.
    destruct tail as [|c tail]; [reflexivity|].
    cbn [read_identifier ends_run getchar_from fst snd] in *.
    rewrite Htail. reflexivity.
  - cbn [app read_identifier]. rewrite Hc, IH.
    unfold push_char. rewrite string_app_assoc. reflexivity.
Qed.

(** With a letter in [LastChar], [gettok] answers [tok_identifier]; it
    replaces [IdentifierStr] by the letter and the whole run of letters and
    digits that follows, and leaves the character after the run in
    [LastChar] ([EOF] at the end of the input), unread by any rule. *)
Theorem gettok_identifier (s : State) (c : Z) (run tail : list Z) :
  LastChar s = c -> isalpha c = true -> stdin s = run ++ tail ->
  Forall (fun x => isalnum x = true) run -> ends_run isalnum tail ->
  gettok s =
    (tok_identifier,
     set_lexer (fst (getchar_from tail)) (snd (getchar_from tail))
       (set_IdentifierStr (string_of_chars (c :: run)) s)).
Proof.
  intros Hc Halpha Hin Hrun Htail. unfold gettok.
  rewrite Hc, Hin.
  rewrite skip_whitespace_nonspace
    by (unfold isalpha in Halpha; unfold isspace; lia).
  replace (c =? 40) with false by (unfold isalpha in Halpha; lia).
  replace (c =? 41) with false by (unfold isalpha in Halpha; lia).
  rewrite Halpha.
  rewrite (read_identifier_run run tail _ Hrun Htail).
  rewrite (set_lexer_at s c (run ++ tail) Hc Hin).
  reflexivity.
Qed.

Lemma gettok_identifier_witness :
  gettok (set_lexer 120 (chars_of "9y+1") (initial "")) =
    (tok_identifier,
     set_lexer 43 (chars_of "1") (set_IdentifierStr "x9y" (initial ""))).
Proof.
  apply (gettok_identifier (set_lexer 120 (chars_of "9y+1") (initial ""))
           120 [57; 121] [43; 49]).
  - reflexivity.
  - reflexivity.
  - reflexivity.
  - repeat constructor.
  - reflexivity.
Defined.

Lemma char_of_int_code (a : ascii) : char_of_int (Z.of_N (N_of_ascii a)) = a.
Proof.
  unfold char_of_int.
  pose proof (N_ascii_bounded a).
  rewrite Z.mod_small by lia.
  rewrite N2Z.id. apply ascii_N_embedding.
Qed.

Lemma string_of_chars_of (text : string) : string_of_chars (chars_of text) = text.
Proof.
  unfold string_of_chars, chars_of.
  induction text as [|a text IH]; [reflexivity|].
  cbn [list_ascii_of_string map string_of_list_ascii].
  rewrite char_of_int_code, IH. reflexivity.
Qed.

(** The first call of [gettok] of the program: the space [LastChar] starts
    with is skipped and the first character of standard input is read. *)
Lemma gettok_initial (c : Z) (rest : list Z) :
  gettok (initial_chars (c :: rest)) = gettok (set_lexer c rest (initial_chars [])).
Proof. apply gettok_after_skip; reflexivity. Qed.

(** A text made of a letter followed by letters and digits only lexes to
    exactly one [Identifier] token, whose text is the input itself, followed
    by [EndOfInput]. *)
Theorem lex_identifier (text : string) (c : Z) (run : list Z) :
  chars_of text = c :: run -> isalpha c = true ->
  Forall (fun x => isalnum x = true) run ->
  lex 2 (initial text) = Some [Identifier text; EndOfInput].
Proof.
  intros Htext Halpha Hrun.
  assert (Hsp : isspace c = false)
    by (unfold isalpha in Halpha; unfold isspace; lia).
  unfold initial. rewrite Htext. cbn [lex].
  rewrite (gettok_initial c run).
  assert (Hrun' : run = run ++ []) by (rewrite app_nil_r; reflexivity).
  unfold gettok at 1. cbn [set_lexer LastChar stdin].
  rewrite skip_whitespace_nonspace by exact Hsp.
  replace (c =? 40) with false by (unfold isalpha in Halpha; lia).
  replace (c =? 41) with false by (unfold isalpha in Halpha; lia).
  rewrite Halpha. rewrite Hrun' at 1.
  rewrite (read_identifier_run run [] _ Hrun I).
  change (push_char EmptyString c +:+ string_of_chars run)%string
    with (string_of_chars (c :: run)).
  rewrite <- Htext, string_of_chars_of.
  reflexivity.
Qed.

Lemma lex_identifier_witness :
  lex 2 (initial "set") = Some [Identifier "set"; EndOfInput].
Proof.
  apply (lex_identifier "set" 115 [101; 116]).
  - reflexivity.
  - reflexivity.
  - repeat constructor.
Defined.

(** ** Lexer: numbers followed by other input *)

(** The [do]/[while] loop of the number rule reads the whole run of digits
    and stops on the character after it. *)
Lemma read_number_run (run tail : list Z) (NumStr : string) (c : Z) :
  digits_only NumStr -> is_digit c ->
  Forall is_digit run -> ends_run isdigit tail ->
  exists NumStr',
    read_number NumStr c (run ++ tail) =
      (NumStr', fst (getchar_from tail), snd (getchar_from tail)) /\
    digits_only NumStr' /\
    strtod NumStr' = horner (strtod NumStr) (c :: run).
Proof.
  intros HS Hc Hrun Htail. revert NumStr c HS Hc.
  induction Hrun as [|c' run Hc' _ IH]; intros NumStr c HS Hc.
  - exists (push_char NumStr c). split; [|split].
    + destruct tail as [|x tail]; [reflexivity|].
      cbn [app read_number ends_run getchar_from fst snd] in *.
      rewrite Htail. reflexivity.
    + apply digits_only_push; assumption.
    + unfold strtod. apply strtod_from_push; assumption.
  - destruct (IH (push_char NumStr c) c') as (N & Hread & HN & Hval);
      [apply digits_only_push; assumption | assumption |].
    exists N. split; [|split].
    + cbn [app read_number]. rewrite (isdigit_true c' Hc'). exact Hread.
    + exact HN.
    + rewrite Hval. unfold horner. cbn [fold_left].
      unfold strtod. rewrite (strtod_from_push NumStr 0 c) by assumption.
      reflexivity.
Qed.

(** With a digit 1..9 in [LastChar], [gettok] answers [tok_number]; [NumVal]
    becomes the base-10 value of that digit and the whole run of digits that
    follows (when an [int] can hold it), and the character after the run is
    left in [LastChar] ([EOF] at the end of the input), unread by any
    rule. *)
Theorem gettok_number_run (s : State) (d : Z) (run tail : list Z) :
  LastChar s = d -> 49 <= d <= 57 -> stdin s = run ++ tail ->
  Forall is_digit run -> ends_run isdigit tail ->
  decimal_value (d :: run) <= INT_MAX ->
  gettok s =
    (tok_number,
     set_NumVal (decimal_value (d :: run))
       (set_lexer (fst (getchar_from tail)) (snd (getchar_from tail)) s)).
Proof.
  intros Hd Hrange Hin Hrun Htail Hmax.
  assert (Hdig : is_digit d) by (unfold is_digit; lia).
  destruct (read_number_run run tail EmptyString d I Hdig Hrun Htail)
    as (N & Hread & _ & Hval).
  unfold gettok. rewrite Hd, Hin.
  rewrite skip_whitespace_nonspace by (unfold isspace; lia).
  replace (d =? 40) with false by lia.
  replace (d =? 41) with false by lia.
  replace (isalpha d) with false by (unfold isalpha; lia).
  rewrite (isdigit_true d Hdig).
  replace (d =? 48) with false by lia.
  rewrite Hread, (set_lexer_at s d (run ++ tail) Hd Hin).
  f_equal. f_equal.
  rewrite Hval. change (strtod EmptyString) with 0.
  rewrite horner_decimal_value, Z.mul_0_l, Z.add_0_l.
  unfold int_of_double.
  assert (0 <= decimal_value (d :: run))
    by (apply decimal_value_nonneg; constructor; assumption).
  replace (INT_MIN <=? decimal_value (d :: run)) with true
    by (unfold INT_MIN; lia).
  replace (decimal_value (d :: run) <=? INT_MAX) with true by lia.
  reflexivity.
Qed.

Lemma gettok_number_run_witness :
  gettok (set_lexer 49 (chars_of "20)") (initial "")) =
    (tok_number, set_NumVal 120 (set_lexer 41 [] (initial ""))).
Proof.
  apply (gettok_number_run (set_lexer 49 (chars_of "20)") (initial ""))
           49 [50; 48] [41]).
  - reflexivity.
  - lia.
  - reflexivity.
  - repeat constructor; unfold is_digit; lia.
  - reflexivity.
  - vm_compute. discriminate.
Defined.

(** ** Lexer: what every call does *)

Lemma skip_whitespace_spec (inp : list Z) (c c' : Z) (inp' : list Z) :
  skip_whitespace c inp = (c', inp') ->
  isspace c' = false /\
  (exists pre, inp = pre ++ inp') /\
  (c' = c \/ c' = EOF \/ In c' inp).
Proof.
  revert c. induction inp as [|x inp IH]; intros c H; cbn [skip_whitespace] in H.
  - destruct (isspace c) eqn:Hc; inversion H; subst.
    + repeat split; [exists []; reflexivity | right; left; reflexivity].
    + repeat split; [exact Hc | exists []; reflexivity | left; reflexivity].
  - destruct (isspace c) eqn:Hc.
    + destruct (IH x H) as (Hs & [pre Hpre] & Hfrom).
      repeat split; [exact Hs | exists (x :: pre); rewrite Hpre; reflexivity |].
      destruct Hfrom as [-> | [-> | Hin]];
        [right; right; left; reflexivity | right; left; reflexivity
        | right; right; right; exact Hin].
    + inversion H; subst.
      repeat split; [exact Hc | exists []; reflexivity | left; reflexivity].
Qed.

Lemma read_identifier_spec (inp : list Z) (Str id : string) (c' : Z) (inp' : list Z) :
  read_identifier Str inp = (id, c', inp') ->
  (exists pre, inp = pre ++ inp') /\ (c' = EOF \/ In c' inp).
Proof.
  revert Str. induction inp as [|x inp IH]; intros Str H; cbn [read_identifier] in H.
  - inversion H; subst. split; [exists []; reflexivity | left; reflexivity].
  - destruct (isalnum x).
    + destruct (IH _ H) as ([pre Hpre] & Hfrom).
      split; [exists (x :: pre); rewrite Hpre; reflexivity|].
      destruct Hfrom as [-> | Hin]; [left; reflexivity | right; right; exact Hin].
    + inversion H; subst.
      split; [exists [c']; reflexivity | right; left; reflexivity].
Qed.

Lemma read_number_spec (inp : list Z) (N N' : string) (c c' : Z) (inp' : list Z) :
  read_number N c inp = (N', c', inp') ->
  (exists pre, inp = pre ++ inp') /\ (c' = EOF \/ In c' inp).
Proof.
  revert N c. induction inp as [|x inp IH]; intros N c H; cbn [read_number] in H.
  - inversion H; subst. split; [exists []; reflexivity | left; reflexivity].
  - destruct (isdigit x).
    + destruct (IH _ _ H) as ([pre Hpre] & Hfrom).
      split; [exists (x :: pre); rewrite Hpre; reflexivity|].
      destruct Hfrom as [-> | Hin]; [left; reflexivity | right; right; exact Hin].
    + inversion H; subst.
      split; [exists [c']; reflexivity | right; left; reflexivity].
Qed.

(** Case analysis on the rule [gettok] applies. *)
Ltac gettok_cases s c inp :=
  unfold gettok in *;
  destruct (skip_whitespace (LastChar s) (stdin s)) as [c inp] eqn:Hskip;
  destruct (Z.eqb_spec c 40) as [Hopen|Hopen];
  [| destruct (Z.eqb_spec c 41) as [Hclose|Hclose];
     [| destruct (isalpha c) eqn:Halpha;
        [ destruct (read_identifier (push_char EmptyString c) inp)
            as [[id c'] inp'] eqn:Hread
        | destruct (isdigit c) eqn:Hdigit;
          [ destruct (Z.eqb_spec c 48) as [Hzero|Hzero];
            [| destruct (read_number EmptyString c inp)
                 as [[NumStr c'] inp'] eqn:Hread ]
          | destruct (Z.eqb_spec c EOF) as [Heof|Heof] ] ] ] ].

(** [gettok] only ever moves forward: the characters left on standard input
    afterwards are a tail of those that were there before. *)
Theorem gettok_reads_forward (s : State) :
  exists consumed, stdin s = consumed ++ stdin (snd (gettok s)).
Proof.
  gettok_cases s c inp;
    destruct (skip_whitespace_spec _ _ _ _ Hskip) as (_ & [pre Hpre] & _);
    cbn [snd stdin set_lexer set_IdentifierStr set_NumVal].
  - exists pre. exact Hpre.
  - exists pre. exact Hpre.
  - destruct (read_identifier_spec _ _ _ _ _ Hread) as ([pre' Hpre'] & _).
    exists (pre ++ pre'). rewrite Hpre, Hpre', app_assoc. reflexivity.
  - exists pre. exact Hpre.
  - destruct (read_number_spec _ _ _ _ _ _ Hread) as ([pre' Hpre'] & _).
    exists (pre ++ pre'). rewrite Hpre, Hpre', app_assoc. reflexivity.
  - exists pre. exact Hpre.
  - destruct inp as [|c' inp']; cbn [snd stdin set_lexer].
    + exists pre. exact Hpre.
    + exists (pre ++ [c']). rewrite Hpre, <- app_assoc. reflexivity.
Qed.

(** "Don't eat the EOF": once [gettok] has answered [tok_eof], every later
    call answers [tok_eof] again and changes nothing. *)
Theorem gettok_eof_again (s : State) :
  fst (gettok s) = tok_eof ->
  gettok (snd (gettok s)) = (tok_eof, snd (gettok s)).
Proof.
  intros H.
  assert (Hshape : exists inp, gettok s = (tok_eof, set_lexer EOF inp s)).
  { clear - H. gettok_cases s c inp; cbn [fst] in H; try discriminate.
    - subst c. exists inp. reflexivity.
    - destruct inp; cbn [fst] in H; unfold tok_eof, EOF in *; contradiction. }
  destruct Hshape as [inp Hs]. rewrite Hs. cbn [snd].
  unfold gettok. cbn [set_lexer LastChar stdin].
  rewrite skip_whitespace_nonspace by reflexivity.
  reflexivity.
Qed.

Lemma gettok_eof_again_witness :
  gettok (snd (gettok (initial " "))) = (tok_eof, snd (gettok (initial " "))).
Proof. apply (gettok_eof_again (initial " ")). reflexivity. Defined.

Lemma Forall_is_char_tail (pre l : list Z) :
  Forall is_char (pre ++ l) -> Forall is_char l.
Proof. intros H. apply Forall_app in H. tauto. Qed.

Lemma is_char_from (c : Z) (inp : list Z) :
  Forall is_char inp -> c = EOF \/ In c inp -> -1 <= c <= 255.
Proof.
  intros Hin [-> | H]; [unfold EOF; lia|].
  rewrite Forall_forall in Hin. specialize (Hin c).
  assert (is_char c) as Hc by (apply Hin; apply list_elem_of_In; exact H).
  unfold is_char in Hc. lia.
Qed.

(** The comment above [enum Token]: the code [gettok] returns is one of the
    five enumerators, or the character itself, in 0..255, when no rule knows
    it; and the lexer's variables stay within what [getchar] delivers. *)
Theorem gettok_code_range (s : State) :
  wf_lexer s ->
  (known_code (fst (gettok s)) \/ unknown_char (fst (gettok s)) = true) /\
  wf_lexer (snd (gettok s)).
Proof.
  intros [Hlast Hin]. unfold known_code.
  gettok_cases s c inp;
    destruct (skip_whitespace_spec _ _ _ _ Hskip) as (Hsp & [pre Hpre] & Hfrom);
    assert (Hinp : Forall is_char inp)
      by (apply (Forall_is_char_tail pre); rewrite <- Hpre; exact Hin);
    assert (Hc : -1 <= c <= 255)
      by (destruct Hfrom as [-> | Hf]; [lia | exact (is_char_from c _ Hin Hf)]);
    cbn [fst snd]; unfold wf_lexer;
    cbn [LastChar stdin set_lexer set_IdentifierStr set_NumVal].
  - split; [left; tauto | split; assumption].
  - split; [left; tauto | split; assumption].
  - destruct (read_identifier_spec _ _ _ _ _ Hread) as ([pre' Hpre'] & Hfrom').
    split; [left; tauto|]. split.
    + exact (is_char_from c' _ Hinp Hfrom').
    + apply (Forall_is_char_tail pre'). rewrite <- Hpre'. exact Hinp.
  - split; [left; tauto | split; assumption].
  - destruct (read_number_spec _ _ _ _ _ _ Hread) as ([pre' Hpre'] & Hfrom').
    split; [left; tauto|]. split.
    + exact (is_char_from c' _ Hinp Hfrom').
    + apply (Forall_is_char_tail pre'). rewrite <- Hpre'. exact Hinp.
  - split; [left; left; subst c; reflexivity | split; assumption].
  - assert (Hunk : unknown_char c = true).
    { unfold unknown_char, isalnum. rewrite Hsp, Halpha, Hdigit.
      unfold EOF in Heof.
      replace (c =? 40) with false by lia. replace (c =? 41) with false by lia.
      cbn [negb orb andb]. lia. }
    destruct inp as [|c' inp']; cbn [fst snd LastChar stdin set_lexer].
    + split; [right; exact Hunk | split; [unfold EOF; lia | constructor]].
    + inversion Hinp as [|? ? Hc' Hinp']; subst.
      split; [right; exact Hunk|].
      split; [unfold is_char in Hc'; lia | exact Hinp'].
Qed.

Lemma gettok_code_range_witness :
  (known_code (fst (gettok (initial "$ x"))) \/
   unknown_char (fst (gettok (initial "$ x"))) = true) /\
  wf_lexer (snd (gettok (initial "$ x"))).
Proof.
  apply (gettok_code_range (initial "$ x")).
  split; [cbn; lia|].
  change (Forall is_char [36; 32; 120]).
  repeat (constructor; [unfold is_char; lia|]). constructor.
Defined.

(** ** Lexer: characters it never gets past *)

Lemma gettok_close_paren (s : State) :
  LastChar s = 41 ->
  gettok s = (tok_bracket_close,
              set_IdentifierStr (push_char (IdentifierStr s) 41) s).
Proof.
  intros H. unfold gettok.
  rewrite H, skip_whitespace_nonspace by reflexivity.
  rewrite <- H, set_lexer_same, H. reflexivity.
Qed.

Lemma tokens_stuck (n : nat) (s : State) (c : Z) :
  LastChar s = c -> c = 40 \/ c = 41 \/ c = 48 ->
  tokens n s = repeat (stuck_token c) n.
Proof.
  intros Hc Hcase. revert s Hc.
  induction n as [|n IH]; intros s Hc; [reflexivity|].
  cbn [tokens repeat].
  destruct Hcase as [-> | [-> | ->]].
  - rewrite (gettok_open_paren s Hc). cbn. f_equal.
    apply IH. destruct s; exact Hc.
  - rewrite (gettok_close_paren s Hc). cbn. f_equal.
    apply IH. destruct s; exact Hc.
  - rewrite (gettok_zero s Hc). cbn. f_equal.
    apply IH. destruct s; exact Hc.
Qed.

Lemma tokens_after_skip (n : nat) (s1 s2 : State) :
  gettok s1 = gettok s2 -> tokens n s1 = tokens n s2.
Proof. intros H. destruct n; [reflexivity|]. cbn [tokens]. rewrite H. reflexivity. Qed.

(** The first call of [gettok] of the program over leading white space. *)
Lemma gettok_initial_space (ws : list Z) (c : Z) (rest : list Z) :
  Forall (fun w => isspace w = true) ws ->
  gettok (initial_chars (ws ++ c :: rest)) =
  gettok (set_lexer c rest (initial_chars [])).
Proof.
  intros Hws. apply gettok_after_skip; try reflexivity.
  cbn [initial_chars set_lexer LastChar stdin].
  rewrite skip_whitespace_app by (reflexivity || exact Hws).
  reflexivity.
Qed.

(** An input whose first character after white space is ['('], [')'] or
    ['0'] yields that one token over and over: however many tokens are
    asked for, nothing that follows the character is ever lexed, and
    [EndOfInput] never comes. *)
Theorem lexer_never_passes (ws rest : list Z) (c : Z) (n : nat) :
  Forall (fun w => isspace w = true) ws ->
  c = 40 \/ c = 41 \/ c = 48 ->
  tokens n (initial_chars (ws ++ c :: rest)) = repeat (stuck_token c) n.
Proof.
  intros Hws Hc.
  rewrite (tokens_after_skip n _ _ (gettok_initial_space ws c rest Hws)).
  apply tokens_stuck; [reflexivity | exact Hc].
Qed.

Lemma lexer_never_passes_witness :
  tokens 4 (initial " ) x") = [CloseParen; CloseParen; CloseParen; CloseParen].
Proof.
  apply (lexer_never_passes [32] [32; 120] 41 4).
  - repeat constructor.
  - right; left; reflexivity.
Defined.

(** ** Lexer: characters no rule knows *)

Lemma unknown_char_facts (c : Z) :
  unknown_char c = true ->
  0 <= c <= 255 /\ isspace c = false /\ c <> 40 /\ c <> 41 /\
  isalpha c = false /\ isdigit c = false.
Proof.
  unfold unknown_char, isalnum. intros H.
  repeat (apply andb_prop in H; destruct H as [H ?]).
  destruct (isspace c), (isalpha c), (isdigit c); try discriminate.
  repeat split; lia.
Qed.

Lemma gettok_unknown (s : State) (c : Z) :
  LastChar s = c -> unknown_char c = true ->
  gettok s =
    (c, set_lexer (fst (getchar_from (stdin s))) (snd (getchar_from (stdin s))) s).
Proof.
  intros Hc Hu.
  destruct (unknown_char_facts c Hu) as (Hr & Hsp & H40 & H41 & Ha & Hd).
  unfold gettok. rewrite Hc, skip_whitespace_nonspace by exact Hsp.
  replace (c =? 40) with false by lia. replace (c =? 41) with false by lia.
  rewrite Ha, Hd. replace (c =? EOF) with false by (unfold EOF; lia).
  rewrite (set_lexer_at s c (stdin s) Hc eq_refl).
  destruct (stdin s); reflexivity.
Qed.

Lemma token_of_unknown (c : Z) (s : State) : 0 <= c -> token_of c s = Unknown c.
Proof.
  intros H. unfold token_of, tok_eof, tok_bracket_open, tok_bracket_close,
    tok_identifier, tok_number.
  replace (c =? -1) with false by lia. replace (c =? -2) with false by lia.
  replace (c =? -3) with false by lia. replace (c =? -5) with false by lia.
  replace (c =? -6) with false by lia. reflexivity.
Qed.

Lemma lex_unknown_from (l : list Z) (s : State) (c : Z) :
  LastChar s = c -> stdin s = l -> unknown_char c = true ->
  Forall (fun x => unknown_char x = true) l ->
  lex (S (S (length l))) s = Some (Unknown c :: map Unknown l ++ [EndOfInput]).
Proof.
  revert s c. induction l as [|x l IH]; intros s c Hc Hin Hu Hl.
  - cbn [lex length]. rewrite (gettok_unknown s c Hc Hu), Hin.
    pose proof (unknown_char_facts c Hu) as (Hr & _).
    replace (c =? tok_eof) with false by (unfold tok_eof; lia).
    rewrite token_of_unknown by lia. reflexivity.
  - inversion Hl as [|? ? Hx Hl']; subst.
    change (lex (S (S (length (x :: l)))) s) with
      (let '(code, s') := gettok s in
       if code =? tok_eof then Some [EndOfInput]
       else option_map (cons (token_of code s')) (lex (S (S (length l))) s')).
    rewrite (gettok_unknown s (LastChar s) eq_refl Hu), Hin.
    pose proof (unknown_char_facts (LastChar s) Hu) as (Hr & _).
    replace (LastChar s =? tok_eof) with false by (unfold tok_eof; lia).
    rewrite token_of_unknown by lia.
    cbn [getchar_from fst snd].
    rewrite (IH (set_lexer x l s) x eq_refl eq_refl Hx Hl').
    reflexivity.
Qed.

(** "Otherwise, just return the character as its ascii value": an input
    made only of characters no rule knows lexes to one [Unknown] token per
    character, in order, and then [EndOfInput]. *)
Theorem lex_unknown_chars (l : list Z) :
  Forall (fun x => unknown_char x = true) l ->
  lex (S (length l)) (initial_chars l) = Some (map Unknown l ++ [EndOfInput]).
Proof.
  intros Hl. destruct l as [|c l]; [reflexivity|].
  inversion Hl as [|? ? Hc Hl']; subst.
  cbn [length map app].
  change (lex (S (S (length l))) (initial_chars (c :: l))) with
    (let '(code, s') := gettok (initial_chars (c :: l)) in
     if code =? tok_eof then Some [EndOfInput]
     else option_map (cons (token_of code s')) (lex (S (length l)) s')).
  rewrite (gettok_initial c l).
  exact (lex_unknown_from l (set_lexer c l (initial_chars [])) c
           eq_refl eq_refl Hc Hl').
Qed.

Lemma lex_unknown_chars_witness :
  lex 4 (initial "+-*") = Some [Unknown 43; Unknown 45; Unknown 42; EndOfInput].
Proof.
  apply (lex_unknown_chars [43; 45; 42]).
  repeat constructor.
Defined.

(** ** Parser: what a call leaves behind *)

(** [gettok] touches the lexer's variables only. *)
Lemma gettok_frame (s : State) :
  CurTok (snd (gettok s)) = CurTok s /\
  stderr (snd (gettok s)) = stderr s /\
  NamedValues (snd (gettok s)) = NamedValues s.
Proof.
  gettok_cases s c inp; try (repeat split; reflexivity).
  destruct inp; repeat split; reflexivity.
Qed.

Lemma getNextToken_frame (s : State) :
  stderr (getNextToken s) = stderr s /\
  NamedValues (getNextToken s) = NamedValues s.
Proof.
  unfold getNextToken. destruct (gettok_frame s) as (_ & He & Hm).
  destruct (gettok s) as [code s1]. cbn [snd] in *. split; assumption.
Qed.

Lemma parser_stderr (fuel : nat) :
  (forall s r s', ParseExpr fuel s = Done r s' ->
     stderr s' = stderr s ++ parser_diagnostics r /\
     NamedValues s' = NamedValues s) /\
  (forall s r s', ParseListExpr fuel s = Done r s' ->
     stderr s' = stderr s ++ parser_diagnostics r /\
     NamedValues s' = NamedValues s) /\
  (forall Items s r s', ParseListLoop fuel Items s = Done r s' ->
     stderr s' = stderr s ++ parser_diagnostics r /\
     NamedValues s' = NamedValues s).
Proof.
  induction fuel as [|n (IHe & IHl & IHw)].
  - repeat split; intros; discriminate.
  - split; [|split].
    + intros s r s' H. cbn [ParseExpr] in H.
      destruct (CurTok s =? tok_identifier).
      { inversion H; subst. cbn [parser_diagnostics].
        rewrite app_nil_r. split; reflexivity. }
      destruct (CurTok s =? tok_number).
      { inversion H; subst. cbn [parser_diagnostics].
        destruct (getNextToken_frame s) as [He Hm].
        rewrite app_nil_r. split; assumption. }
      destruct (CurTok s =? tok_bracket_open); [exact (IHl _ _ _ H)|].
      inversion H; subst. split; reflexivity.
    + intros s r s' H. cbn [ParseListExpr] in H.
      destruct (IHw _ _ _ _ H) as [He Hm].
      destruct (getNextToken_frame s) as [He' Hm'].
      rewrite He, He', Hm, Hm'. split; reflexivity.
    + intros Items s r s' H. cbn [ParseListLoop] in H.
      destruct (ParseExpr n s) as [|r1 s1] eqn:Hchild; [discriminate|].
      destruct (IHe _ _ _ Hchild) as [He1 Hm1].
      destruct r1 as [V|].
      * cbn [parser_diagnostics] in He1. rewrite app_nil_r in He1.
        destruct (getNextToken_frame s1) as [He' Hm'].
        destruct (CurTok s1 =? tok_bracket_close).
        { inversion H; subst. cbn [parser_diagnostics].
          rewrite app_nil_r, He', Hm', He1, Hm1. split; reflexivity. }
        destruct (IHw _ _ _ _ H) as [He Hm].
        rewrite He, Hm, He', Hm', He1, Hm1. split; reflexivity.
      * inversion H; subst. split; assumption.
Qed.

(** Whenever [ParseExpr] or [ParseListExpr] returns, however deep the lists
    it went through: a returned node comes with no diagnostic, a null
    result with exactly one line, "Error: unknown token when expecting an
    expression", added to standard error; and [NamedValues] is not
    touched. *)
Theorem parser_reports_once (s s' : State) (r : option ExprAST) :
  returns (fun fuel => ParseExpr fuel s) r s' \/
  returns (fun fuel => ParseListExpr fuel s) r s' ->
  stderr s' = stderr s ++ parser_diagnostics r /\
  NamedValues s' = NamedValues s.
Proof.
  intros [[n H] | [n H]].
  - exact (proj1 (parser_stderr n) s r s' H).
  - exact (proj1 (proj2 (parser_stderr n)) s r s' H).
Qed.

Lemma parser_reports_once_witness :
  stderr (eprint "Error: unknown token when expecting an expression
" (getNextToken (initial "+ 1"))) =
    stderr (getNextToken (initial "+ 1")) ++ parser_diagnostics None /\
  NamedValues (eprint "Error: unknown token when expecting an expression
" (getNextToken (initial "+ 1"))) =
    NamedValues (getNextToken (initial "+ 1")).
Proof.
  apply (parser_reports_once (getNextToken (initial "+ 1")) _ None).
  left. exists 1%nat. reflexivity.
Defined.

(** ** Parser: the nodes it returns *)

Lemma ParseListLoop_result (fuel : nat) :
  forall Items s e s',
    ParseListLoop fuel Items s = Done (Some e) s' ->
    exists V more, e = ListExprAST (Items ++ V :: more).
Proof.
  induction fuel as [|n IH]; intros Items s e s' H; [discriminate|].
  cbn [ParseListLoop] in H.
  destruct (ParseExpr n s) as [|r1 s1]; [discriminate|].
  destruct r1 as [V|]; [|discriminate].
  destruct (CurTok s1 =? tok_bracket_close).
  - inversion H; subst. exists V, []. reflexivity.
  - destruct (IH _ _ _ _ H) as (V' & more & ->).
    exists V, (V' :: more). rewrite <- app_assoc. reflexivity.
Qed.

(** A list node returned by [ParseListExpr] has at least one item: the
    parser never produces an empty list. *)
Theorem ParseListExpr_never_empty (s s' : State) (e : ExprAST) :
  returns (fun fuel => ParseListExpr fuel s) (Some e) s' ->
  exists V more, e = ListExprAST (V :: more).
Proof.
  intros [[|n] H]; [discriminate|].
  cbn [ParseListExpr] in H.
  exact (ParseListLoop_result n [] _ e s' H).
Qed.

Lemma ParseListExpr_never_empty_witness :
  exists V more,
    ListExprAST [IdentifierExprAST "a"; NumberExprAST 1] = ListExprAST (V :: more).
Proof.
  apply (ParseListExpr_never_empty (after_open_paren 97 " 1)")
           (getNextToken (getNextToken (getNextToken (getNextToken
              (after_open_paren 97 " 1)")))))).
  exists 4%nat. reflexivity.
Defined.

(** [ParseExpr] returns a node only when the current token is an
    identifier, a number or ['('], and the node's [getType] is the one that
    token announces. *)
Theorem ParseExpr_node_type (s s' : State) (e : ExprAST) :
  returns (fun fuel => ParseExpr fuel s) (Some e) s' ->
  (CurTok s = tok_identifier /\ getType e = ExprType_Identifier) \/
  (CurTok s = tok_number /\ getType e = ExprType_Number) \/
  (CurTok s = tok_bracket_open /\ getType e = ExprType_List).
Proof.
  intros [[|n] H]; [discriminate|].
  cbn [ParseExpr] in H.
  destruct (Z.eqb_spec (CurTok s) tok_identifier) as [Hi|_].
  { inversion H; subst. left. split; [exact Hi | reflexivity]. }
  destruct (Z.eqb_spec (CurTok s) tok_number) as [Hn|_].
  { inversion H; subst. right; left. split; [exact Hn | reflexivity]. }
  destruct (Z.eqb_spec (CurTok s) tok_bracket_open) as [Ho|_]; [|discriminate].
  right; right. split; [exact Ho|].
  destruct n as [|n]; [discriminate|]. cbn [ParseListExpr] in H.
  destruct (ParseListLoop_result n [] _ e s' H) as (V & more & ->).
  reflexivity.
Qed.

Lemma ParseExpr_node_type_witness :
  (CurTok (getNextToken (initial "42")) = tok_identifier /\
   getType (NumberExprAST 42) = ExprType_Identifier) \/
  (CurTok (getNextToken (initial "42")) = tok_number /\
   getType (NumberExprAST 42) = ExprType_Number) \/
  (CurTok (getNextToken (initial "42")) = tok_bracket_open /\
   getType (NumberExprAST 42) = ExprType_List).
Proof.
  apply (ParseExpr_node_type (getNextToken (initial "42"))
           (getNextToken (getNextToken (initial "42")))).
  exists 1%nat. reflexivity.
Defined.

(** ** Lexer and parser together: atoms *)

(** Writing to standard error does not disturb the lexer. *)
Lemma gettok_eprint (msg : string) (s : State) :
  gettok (eprint msg s) = (fst (gettok s), eprint msg (snd (gettok s))).
Proof.
  unfold gettok. cbn [eprint LastChar stdin].
  destruct (skip_whitespace (LastChar s) (stdin s)) as [c inp].
  destruct (c =? 40); [reflexivity|].
  destruct (c =? 41); [reflexivity|].
  destruct (isalpha c).
  { destruct (read_identifier (push_char EmptyString c) inp) as [[id c'] inp'].
    reflexivity. }
  destruct (isdigit c).
  { destruct (c =? 48); [reflexivity|].
    destruct (read_number EmptyString c inp) as [[N c'] inp']. reflexivity. }
  destruct (c =? EOF); [reflexivity|].
  destruct inp; reflexivity.
Qed.

(** A text that is one number [1-9][0-9]* fitting an [int] parses to the
    number node carrying its base-10 value; the parser stops at end of
    input with nothing reported, and generating code for the node gives the
    32-bit constant of that value. *)
Theorem parse_number (text : string) (d : Z) (run : list Z) (fuel : nat) :
  chars_of text = d :: run -> 49 <= d <= 57 -> Forall is_digit run ->
  decimal_value (d :: run) <= INT_MAX ->
  exists s',
    parse text (S fuel) =
      Done (Some (NumberExprAST (decimal_value (d :: run)))) s' /\
    CurTok s' = tok_eof /\ stderr s' = [] /\
    codegen (NumberExprAST (decimal_value (d :: run))) s' =
      Some (Some (ConstantInt 32 (decimal_value (d :: run))), s').
Proof.
  intros Htext Hd Hrun Hmax.
  unfold parse, initial, getNextToken. rewrite Htext.
  rewrite (gettok_number d run Hd Hrun Hmax).
  eexists. split; [reflexivity|]. repeat split.
Qed.

Lemma parse_number_witness :
  exists s',
    parse "365" 1 = Done (Some (NumberExprAST 365)) s' /\
    CurTok s' = tok_eof /\ stderr s' = [] /\
    codegen (NumberExprAST 365) s' = Some (Some (ConstantInt 32 365), s').
Proof.
  apply (parse_number "365" 51 [54; 53] 0).
  - reflexivity.
  - lia.
  - repeat constructor; unfold is_digit; lia.
  - vm_compute. discriminate.
Defined.

(** A text that is one identifier parses to the identifier node carrying
    the text itself, with nothing reported. *)
Theorem parse_identifier (text : string) (c : Z) (run : list Z) (fuel : nat) :
  chars_of text = c :: run -> isalpha c = true ->
  Forall (fun x => isalnum x = true) run ->
  exists s',
    parse text (S fuel) = Done (Some (IdentifierExprAST text)) s' /\
    stderr s' = [].
Proof.
  intros Htext Halpha Hrun.
  assert (Hsp : isspace c = false)
    by (unfold isalpha in Halpha; unfold isspace; lia).
  assert (Htok : gettok (initial text) =
            (tok_identifier,
             set_lexer EOF [] (set_IdentifierStr text
                                 (set_lexer c run (initial_chars []))))).
  { unfold initial. rewrite Htext, (gettok_initial c run).
    assert (Hrun' : run = run ++ []) by (rewrite app_nil_r; reflexivity).
    unfold gettok. cbn [set_lexer LastChar stdin].
    rewrite skip_whitespace_nonspace by exact Hsp.
    replace (c =? 40) with false by (unfold isalpha in Halpha; lia).
    replace (c =? 41) with false by (unfold isalpha in Halpha; lia).
    rewrite Halpha. rewrite Hrun' at 1.
    rewrite (read_identifier_run run [] _ Hrun I).
    change (push_char EmptyString c +:+ string_of_chars run)%string
      with (string_of_chars (c :: run)).
    rewrite <- Htext, string_of_chars_of. reflexivity. }
  unfold parse, getNextToken. rewrite Htok.
  eexists. split; reflexivity.
Qed.

Lemma parse_identifier_witness :
  exists s', parse "x1" 1 = Done (Some (IdentifierExprAST "x1")) s' /\ stderr s' = [].
Proof.
  apply (parse_identifier "x1" 120 [49] 0).
  - reflexivity.
  - reflexivity.
  - repeat constructor.
Defined.

(** ** Parser: lists on real input *)

(** When [gettok] answers [tok_bracket_open], the ['('] is what it leaves in
    [LastChar]. *)
Lemma gettok_open_leaves_paren (s : State) :
  wf_lexer s -> fst (gettok s) = tok_bracket_open ->
  LastChar (snd (gettok s)) = 40.
Proof.
  intros [Hlast Hin] H.
  gettok_cases s c inp; cbn [fst snd] in *; try discriminate.
  - subst c. reflexivity.
  - destruct (skip_whitespace_spec _ _ _ _ Hskip) as (_ & _ & Hfrom).
    assert (Hc : -1 <= c <= 255)
      by (destruct Hfrom as [-> | Hf]; [lia | exact (is_char_from c _ Hin Hf)]).
    destruct inp; cbn [fst] in H; unfold tok_bracket_open in H; lia.
Qed.

(** Whenever the lexer has just delivered ['('] as the current token, the
    parser does not return from it: [ParseExpr] enters [ParseListExpr], which
    reads the same ['('] again and calls [ParseExpr], without end. *)
Theorem ParseExpr_open_paren_diverges (s : State) :
  wf_lexer s -> fst (gettok s) = tok_bracket_open ->
  diverges (fun fuel => ParseExpr fuel (getNextToken s)) /\
  diverges (fun fuel => ParseListExpr fuel (getNextToken s)).
Proof.
  intros Hwf H.
  assert (Hs : stuck_on_open (getNextToken s)).
  { pose proof (gettok_open_leaves_paren s Hwf H) as Hl.
    unfold getNextToken, stuck_on_open.
    destruct (gettok s) as [code s1]. cbn [fst snd] in *.
    split; [destruct s1; exact Hl | subst code; destruct s1; reflexivity]. }
  split; intros fuel; apply (stuck_parser_diverges fuel _ Hs).
Qed.

Lemma ParseExpr_open_paren_diverges_witness :
  diverges (fun fuel => ParseExpr fuel (getNextToken (initial "(f 1)"))) /\
  diverges (fun fuel => ParseListExpr fuel (getNextToken (initial "(f 1)"))).
Proof.
  apply (ParseExpr_open_paren_diverges (initial "(f 1)")).
  - split; [cbn; lia|].
    change (Forall is_char [40; 102; 32; 49; 41]).
    repeat (constructor; [unfold is_char; lia|]). constructor.
  - reflexivity.
Defined.

(** ** Driver: every input *)

Lemma chars_of_range (text : string) : Forall is_char (chars_of text).
Proof.
  unfold chars_of. induction text as [|a text IH]; [constructor|].
  cbn [list_ascii_of_string map]. constructor; [|exact IH].
  pose proof (N_ascii_bounded a). unfold is_char. lia.
Qed.

Lemma first_significant_char (text : string) (c : Z) :
  first_significant text c -> is_char c.
Proof.
  intros (ws & rest & Htext & _ & _).
  pose proof (chars_of_range text) as H. rewrite Htext in H.
  apply Forall_app in H. destruct H as [_ H]. inversion H; assumption.
Qed.

(** The token [main] loads first, when the first character after white
    space is [c]. *)
Lemma main_first_token (text : string) (c : Z) :
  first_significant text c ->
  exists rest,
    getNextToken (eprint "ready> " (initial text)) =
    getNextToken (eprint "ready> " (set_lexer c rest (initial_chars []))).
Proof.
  intros (ws & rest & Htext & Hws & _). exists rest.
  unfold getNextToken. rewrite !gettok_eprint.
  unfold initial. rewrite Htext, (gettok_initial_space ws c rest Hws).
  reflexivity.
Qed.

Lemma gettok_first_code (s : State) (c : Z) (inp : list Z) :
  LastChar s = c -> isspace c = false -> is_char c -> c <> 40 ->
  fst (gettok s) <> tok_eof /\ fst (gettok s) <> tok_bracket_open.
Proof.
  intros Hc Hsp Hr Hne. unfold is_char in Hr.
  unfold gettok. rewrite Hc, skip_whitespace_nonspace by exact Hsp.
  replace (c =? 40) with false by lia.
  destruct (c =? 41); [split; discriminate|].
  destruct (isalpha c).
  { destruct (read_identifier _ _) as [[id c'] inp']. split; discriminate. }
  destruct (isdigit c).
  { destruct (c =? 48); [split; discriminate|].
    destruct (read_number _ _ _) as [[N c'] inp']. split; discriminate. }
  replace (c =? EOF) with false by (unfold EOF; lia).
  destruct (stdin s); cbn [fst]; unfold tok_eof, tok_bracket_open; lia.
Qed.

(** On an input of white space only (or no input at all), [main] returns 0
    after writing its prompt twice; nothing is parsed. *)
Theorem main_blank_input (text : string) (fuel : nat) :
  Forall (fun w => isspace w = true) (chars_of text) ->
  main text fuel =
    Done 0 (eprint "ready> "
              (set_CurTok tok_eof
                 (set_lexer EOF [] (eprint "ready> " (initial_chars []))))).
Proof.
  intros Hws.
  assert (Htok : gettok (initial text) = gettok (set_lexer EOF [] (initial_chars []))).
  { apply gettok_after_skip; try reflexivity.
    unfold initial. cbn [initial_chars set_lexer LastChar stdin].
    rewrite <- (app_nil_r (chars_of text)).
    rewrite skip_whitespace_app by (reflexivity || exact Hws).
    reflexivity. }
  unfold main, getNextToken. rewrite gettok_eprint, Htok. reflexivity.
Qed.

Lemma main_blank_input_witness :
  main "  " 0 =
    Done 0 (eprint "ready> "
              (set_CurTok tok_eof
                 (set_lexer EOF [] (eprint "ready> " (initial_chars []))))).
Proof. apply (main_blank_input "  " 0). repeat constructor. Defined.

(** On an input whose first character after white space is not ['('],
    [main] parses nothing: it reads that one token, reports it as a
    character that can not be processed, and returns -2. *)
Theorem main_rejects_non_list (text : string) (c : Z) (fuel : nat) :
  first_significant text c -> c <> 40 ->
  let s1 := eprint "ready> " (getNextToken (eprint "ready> " (initial text))) in
  main text fuel = Done (-2) (eprint (cannot_process_msg (CurTok s1)) s1).
Proof.
  intros Hfirst Hne s1.
  pose proof (first_significant_char text c Hfirst) as Hr.
  destruct (main_first_token text c Hfirst) as [rest Htok].
  destruct Hfirst as (_ & _ & _ & _ & Hsp).
  destruct (gettok_first_code (eprint "ready> " (set_lexer c rest (initial_chars [])))
              c rest eq_refl Hsp Hr Hne) as [Heof Hopen].
  unfold main, main_loop. fold s1.
  assert (Hcur : CurTok s1 =
            fst (gettok (eprint "ready> " (set_lexer c rest (initial_chars []))))).
  { subst s1. rewrite Htok. unfold getNextToken.
    destruct (gettok _) as [code s']. destruct s'; reflexivity. }
  rewrite Hcur.
  destruct (Z.eqb_spec (fst (gettok (eprint "ready> "
              (set_lexer c rest (initial_chars []))))) tok_eof); [contradiction|].
  destruct (Z.eqb_spec (fst (gettok (eprint "ready> "
              (set_lexer c rest (initial_chars []))))) tok_bracket_open);
    [contradiction|].
  reflexivity.
Qed.

Lemma main_rejects_non_list_witness :
  main " x (a 1)" 0 =
    Done (-2)
      (eprint (cannot_process_msg tok_identifier)
         (eprint "ready> " (getNextToken (eprint "ready> " (initial " x (a 1)"))))).
Proof.
  apply (main_rejects_non_list " x (a 1)" 120 0).
  - exists [32], (chars_of " (a 1)"). repeat split. repeat constructor.
  - discriminate.
Defined.

(** On an input whose first character after white space is ['('], [main]
    never terminates: no exit status, normal or not, is ever produced. *)
Theorem main_open_paren_diverges (text : string) :
  first_significant text 40 -> diverges (main text).
Proof.
  intros Hfirst fuel.
  destruct (main_first_token text 40 Hfirst) as [rest Htok].
  unfold main, main_loop. rewrite Htok.
  set (s := eprint "ready> "
              (getNextToken (eprint "ready> " (set_lexer 40 rest (initial_chars []))))).
  assert (Hs : stuck_on_open s).
  { destruct (getNextToken_stuck
                (eprint "ready> " (set_lexer 40 rest (initial_chars [])))
                eq_refl) as [Hl Hc].
    subst s. split; [exact Hl | exact Hc]. }
  destruct Hs as [Hl Hc].
  replace (CurTok s =? tok_eof) with false by (rewrite Hc; reflexivity).
  replace (CurTok s =? tok_bracket_open) with true by (rewrite Hc; reflexivity).
  rewrite (proj1 (proj2 (stuck_parser_diverges fuel s (conj Hl Hc)))). reflexivity.
Qed.

Lemma main_open_paren_diverges_witness : diverges (main " (set x 1)").
Proof.
  apply (main_open_paren_diverges " (set x 1)").
  exists [32], (chars_of "set x 1)"). repeat split. repeat constructor.
Defined.

(** ** Code generation: the table of named values *)

Lemma codegen_Identifier_cases (Name : string) (s : State) :
  (exists V, NamedValues s !! Name = Some (Some V) /\
     codegen_Identifier Name s = (Some V, s)) \/
  (NamedValues s !! Name = Some None /\
     codegen_Identifier Name s = (None, eprint unknown_variable_line s)) \/
  (NamedValues s !! Name = None /\
     codegen_Identifier Name s =
       (None, eprint unknown_variable_line
                (set_NamedValues (<[Name := None]> (NamedValues s)) s))).
Proof.
  unfold codegen_Identifier, NamedValues_subscript.
  destruct (NamedValues s !! Name) as [[V|]|] eqn:Hlook.
  - left. exists V. split; reflexivity.
  - right; left. split; reflexivity.
  - right; right. split; reflexivity.
Qed.

(** [IdentifierExprAST::codegen] reports exactly when it returns null: a
    value that is found is returned with the state untouched, and a null
    result always comes with the one line "Error: Unknown variable name"
    added to standard error. *)
Theorem codegen_identifier_reports_iff_null
        (Name : string) (s s' : State) (V : option Value) :
  codegen (IdentifierExprAST Name) s = Some (V, s') ->
  (V <> None /\ s' = s /\ NamedValues s !! Name = Some V) \/
  (V = None /\ stderr s' = stderr s ++ [unknown_variable_line]).
Proof.
  cbn [codegen]. intros H. inversion H as [Hc]. clear H.
  destruct (codegen_Identifier_cases Name s)
    as [(V0 & Hlook & Hcg) | [(Hlook & Hcg) | (Hlook & Hcg)]];
    rewrite Hcg in Hc; inversion Hc; subst.
  - left. split; [discriminate | split; [reflexivity | exact Hlook]].
  - right. split; reflexivity.
  - right. split; reflexivity.
Qed.

Lemma codegen_identifier_reports_iff_null_witness :
  (Some (ConstantInt 32 7) <> None /\
   set_NamedValues {["x" := Some (ConstantInt 32 7)]} (initial "") =
     set_NamedValues {["x" := Some (ConstantInt 32 7)]} (initial "") /\
   NamedValues (set_NamedValues {["x" := Some (ConstantInt 32 7)]} (initial ""))
     !! "x" = Some (Some (ConstantInt 32 7))) \/
  (Some (ConstantInt 32 7) = None /\
   stderr (set_NamedValues {["x" := Some (ConstantInt 32 7)]} (initial "")) =
     stderr (set_NamedValues {["x" := Some (ConstantInt 32 7)]} (initial ""))
       ++ [unknown_variable_line]).
Proof.
  apply (codegen_identifier_reports_iff_null "x"
           (set_NamedValues {["x" := Some (ConstantInt 32 7)]} (initial ""))).
  cbn [codegen]. unfold codegen_Identifier, NamedValues_subscript.
  cbn [set_NamedValues NamedValues]. rewrite lookup_singleton_eq. reflexivity.
Defined.

(** Generating code never removes or changes an entry of [NamedValues], and
    never touches the lexer's or the parser's variables. *)
Theorem codegen_keeps_bindings (e : ExprAST) (s s' : State) (V : option Value) :
  codegen e s = Some (V, s') ->
  (forall k x, NamedValues s !! k = Some x -> NamedValues s' !! k = Some x) /\
  LastChar s' = LastChar s /\ stdin s' = stdin s /\
  IdentifierStr s' = IdentifierStr s /\ NumVal s' = NumVal s /\
  CurTok s' = CurTok s.
Proof.
  destruct e as [Val | Name | Items]; cbn [codegen]; intros H;
    [| | discriminate].
  - inversion H; subst. repeat split. intros k x Hk. exact Hk.
  - inversion H as [Hc]. clear H.
    destruct (codegen_Identifier_cases Name s)
      as [(V0 & Hlook & Hcg) | [(Hlook & Hcg) | (Hlook & Hcg)]];
      rewrite Hcg in Hc; inversion Hc; subst; repeat split;
      try (intros k x Hk; exact Hk).
    intros k x Hk. cbn [eprint set_NamedValues NamedValues].
    destruct (decide (Name = k)) as [->|Hne]; [congruence|].
    rewrite lookup_insert_ne by exact Hne. exact Hk.
Qed.

Lemma codegen_keeps_bindings_witness :
  (forall k x,
     NamedValues (set_NamedValues {["x" := Some (ConstantInt 32 7)]} (initial "")) !! k
       = Some x ->
     NamedValues
       (eprint unknown_variable_line
          (set_NamedValues
             (<["y" := None]> {["x" := Some (ConstantInt 32 7)]}) (initial ""))) !! k
       = Some x) /\
  LastChar (initial "") = LastChar (initial "") /\
  stdin (initial "") = stdin (initial "") /\
  IdentifierStr (initial "") = IdentifierStr (initial "") /\
  NumVal (initial "") = NumVal (initial "") /\
  CurTok (initial "") = CurTok (initial "").
Proof.
  assert (H : codegen (IdentifierExprAST "y")
                (set_NamedValues {["x" := Some (ConstantInt 32 7)]} (initial "")) =
              Some (None,
                    eprint unknown_variable_line
                      (set_NamedValues
                         (<["y" := None]> {["x" := Some (ConstantInt 32 7)]})
                         (initial "")))).
  { cbn [codegen]. unfold codegen_Identifier, NamedValues_subscript.
    cbn [set_NamedValues NamedValues].
    rewrite lookup_singleton_ne by discriminate. reflexivity. }
  exact (codegen_keeps_bindings _ _ _ _ H).
Defined.

(** Looking the same unknown name up twice: the first call adds the null
    entry, the second finds it; both report, and the table no longer
    grows. *)
Theorem codegen_unknown_twice (Name : string) (s : State) :
  NamedValues s !! Name = None ->
  exists s1 s2,
    codegen (IdentifierExprAST Name) s = Some (None, s1) /\
    codegen (IdentifierExprAST Name) s1 = Some (None, s2) /\
    NamedValues s2 = NamedValues s1 /\
    size (NamedValues s2) = S (size (NamedValues s)) /\
    stderr s2 = stderr s ++ [unknown_variable_line; unknown_variable_line].
Proof.
  intros Hfresh.
  set (s1 := eprint unknown_variable_line
               (set_NamedValues (<[Name := None]> (NamedValues s)) s)).
  assert (H1 : codegen (IdentifierExprAST Name) s = Some (None, s1)).
  { cbn [codegen]. unfold codegen_Identifier, NamedValues_subscript.
    rewrite Hfresh. reflexivity. }
  assert (Hnull : NamedValues s1 !! Name = Some None).
  { subst s1. cbn [eprint set_NamedValues NamedValues]. apply lookup_insert_eq. }
  exists s1, (eprint unknown_variable_line s1).
  split; [exact H1|]. split; [exact (codegen_null_entry Name s1 Hnull)|].
  split; [reflexivity|]. split.
  - subst s1. cbn [eprint set_NamedValues NamedValues].
    apply map_size_insert_None. exact Hfresh.
  - subst s1. cbn [eprint set_NamedValues stderr].
    rewrite <- app_assoc. reflexivity.
Qed.

Lemma codegen_unknown_twice_witness :
  exists s1 s2,
    codegen (IdentifierExprAST "v") (initial "") = Some (None, s1) /\
    codegen (IdentifierExprAST "v") s1 = Some (None, s2) /\
    NamedValues s2 = NamedValues s1 /\
    size (NamedValues s2) = S (size (NamedValues (initial ""))) /\
    stderr s2 = stderr (initial "") ++ [unknown_variable_line; unknown_variable_line].
Proof. apply (codegen_unknown_twice "v" (initial "")). apply lookup_empty. Defined.

(** ** Lexer: the token stream as a function of the unread input *)

Lemma gettok_wf (s : State) : wf_lexer s -> wf_lexer (snd (gettok s)).
Proof.
  intros [Hlast Hin].
  gettok_cases s c inp;
    destruct (skip_whitespace_spec _ _ _ _ Hskip) as (Hsp & [pre Hpre] & Hfrom);
    assert (Hinp : Forall is_char inp)
      by (apply (Forall_is_char_tail pre); rewrite <- Hpre; exact Hin);
    assert (Hc : -1 <= c <= 255)
      by (destruct Hfrom as [-> | Hf]; [lia | exact (is_char_from c _ Hin Hf)]);
    cbn [snd]; unfold wf_lexer;
    cbn [LastChar stdin set_lexer set_IdentifierStr set_NumVal].
  - split; assumption.
  - split; assumption.
  - destruct (read_identifier_spec _ _ _ _ _ Hread) as ([pre' Hpre'] & Hfrom').
    split; [exact (is_char_from c' _ Hinp Hfrom')|].
    apply (Forall_is_char_tail pre'). rewrite <- Hpre'. exact Hinp.
  - split; assumption.
  - destruct (read_number_spec _ _ _ _ _ _ Hread) as ([pre' Hpre'] & Hfrom').
    split; [exact (is_char_from c' _ Hinp Hfrom')|].
    apply (Forall_is_char_tail pre'). rewrite <- Hpre'. exact Hinp.
  - split; assumption.
  - destruct inp as [|c' inp']; cbn [snd LastChar stdin set_lexer].
    + split; [unfold EOF; lia | constructor].
    + inversion Hinp as [|? ? Hc' Hinp']; subst.
      split; [unfold is_char in Hc'; lia | exact Hinp'].
Qed.

Lemma gettok_same_input (s1 s2 : State) :
  wf_lexer s1 -> same_input s1 s2 ->
  fst (gettok s1) = fst (gettok s2) /\
  same_input (snd (gettok s1)) (snd (gettok s2)) /\
  token_of (fst (gettok s1)) (snd (gettok s1)) =
    token_of (fst (gettok s2)) (snd (gettok s2)).
Proof.
  intros [Hlast Hin] [Hl Hs]. unfold gettok. rewrite <- Hl, <- Hs.
  destruct (skip_whitespace (LastChar s1) (stdin s1)) as [c inp] eqn:Hskip.
  destruct (skip_whitespace_spec _ _ _ _ Hskip) as (_ & _ & Hfrom).
  assert (Hc : -1 <= c <= 255)
    by (destruct Hfrom as [-> | Hf]; [lia | exact (is_char_from c _ Hin Hf)]).
  destruct (c =? 40); [repeat split|].
  destruct (c =? 41); [repeat split|].
  destruct (isalpha c).
  { destruct (read_identifier (push_char EmptyString c) inp) as [[id c'] inp'].
    repeat split. }
  destruct (isdigit c).
  { destruct (c =? 48); [repeat split|].
    destruct (read_number EmptyString c inp) as [[N c'] inp']. repeat split. }
  destruct (Z.eqb_spec c EOF) as [Heof|Heof]; [repeat split|].
  unfold EOF in Heof.
  destruct inp; cbn [fst snd]; (split; [reflexivity|]);
    (split; [split; reflexivity|]); rewrite !token_of_unknown by lia; reflexivity.
Qed.

Lemma tokens_same_input (n : nat) (s1 s2 : State) :
  wf_lexer s1 -> same_input s1 s2 -> tokens n s1 = tokens n s2.
Proof.
  revert s1 s2. induction n as [|n IH]; intros s1 s2 Hwf Hsame; [reflexivity|].
  cbn [tokens].
  destruct (gettok_same_input s1 s2 Hwf Hsame) as (Hcode & Hnext & Htok).
  pose proof (gettok_wf s1 Hwf) as Hwf'.
  destruct (gettok s1) as [code1 s1'], (gettok s2) as [code2 s2'].
  cbn [fst snd] in *. subst code2. rewrite Htok.
  rewrite (IH s1' s2' Hwf' Hnext). reflexivity.
Qed.

(** The tokens the lexer delivers depend on the unread input alone, that
    is on [LastChar] and what is left on standard input: not on
    [IdentifierStr] or [NumVal] as earlier tokens left them, nor on the
    parser's, the driver's or the backend's variables. *)
Theorem tokens_depend_on_input (n : nat) (s1 s2 : State) :
  wf_lexer s1 -> LastChar s1 = LastChar s2 -> stdin s1 = stdin s2 ->
  tokens n s1 = tokens n s2.
Proof. intros Hwf Hl Hs. apply tokens_same_input; [exact Hwf | split; assumption]. Qed.

Lemma tokens_depend_on_input_witness :
  tokens 3 (initial "x 1") =
  tokens 3 (set_CurTok tok_number
              (set_NumVal 9 (set_IdentifierStr "old" (eprint "ready> " (initial "x 1"))))).
Proof.
  apply (tokens_depend_on_input 3 (initial "x 1")).
  - split; [cbn; lia|].
    change (Forall is_char [120; 32; 49]).
    repeat (constructor; [unfold is_char; lia|]). constructor.
  - reflexivity.
  - reflexivity.
Defined.

(** An identifier followed by white space: the first token is the
    identifier, and the tokens after it are those of the rest of the input
    lexed on its own. *)
Theorem tokens_identifier_then (c w : Z) (run rest : list Z) (n : nat) :
  isalpha c = true -> Forall (fun x => isalnum x = true) run ->
  isspace w = true -> Forall is_char rest ->
  tokens (S n) (initial_chars (c :: run ++ w :: rest)) =
    Identifier (string_of_chars (c :: run)) :: tokens n (initial_chars rest).
Proof.
  intros Halpha Hrun Hw Hrest.
  assert (Hsp : isspace c = false)
    by (unfold isalpha in Halpha; unfold isspace; lia).
  assert (Htail : ends_run isalnum (w :: rest)).
  { cbn [ends_run]. unfold isalnum, isalpha, isdigit. unfold isspace in Hw. lia. }
  assert (Htok : gettok (initial_chars (c :: run ++ w :: rest)) =
            (tok_identifier,
             set_lexer w rest
               (set_IdentifierStr (string_of_chars (c :: run))
                  (set_lexer c (run ++ w :: rest) (initial_chars []))))).
  { rewrite (gettok_initial c (run ++ w :: rest)).
    unfold gettok. cbn [set_lexer LastChar stdin].
    rewrite skip_whitespace_nonspace by exact Hsp.
    replace (c =? 40) with false by (unfold isalpha in Halpha; lia).
    replace (c =? 41) with false by (unfold isalpha in Halpha; lia).
    rewrite Halpha, (read_identifier_run run (w :: rest) _ Hrun Htail).
    reflexivity. }
  cbn [tokens]. rewrite Htok.
  cbn [Z.eqb tok_identifier tok_eof Pos.eqb].
  f_equal.
  set (s' := set_lexer w rest _).
  transitivity (tokens n (set_lexer 32 rest s')).
  - apply tokens_after_skip. apply gettok_after_skip; try reflexivity.
    cbn [set_lexer LastChar stdin]. subst s'. cbn [set_lexer LastChar stdin].
    apply skip_whitespace_any_space; [exact Hw | reflexivity].
  - symmetry. apply tokens_same_input; [|split; reflexivity].
    split; [cbn; lia | exact Hrest].
Qed.

Lemma tokens_identifier_then_witness :
  tokens 3 (initial "ab c") = Identifier "ab" :: tokens 2 (initial "c").
Proof.
  apply (tokens_identifier_then 97 32 [98] [99] 2).
  - reflexivity.
  - repeat constructor.
  - reflexivity.
  - repeat (constructor; [unfold is_char; lia|]). constructor.
Defined.
